(** * WiseT: transcript formatting, lexical statistics, sentiment and report

    A shallow embedding of the pure core of [wise.py]:
    [clean_transcription], [calcular_estatisticas], [analisar_sentimento],
    [generate_csv], [format_timestamp], [format_transcription] and the
    derivation steps of [upload_audio].

    Conventions.
    - A Python [str] is a list of Unicode code points ([Z]).
    - A Python [int] is a [Z]. A Python [float] is a binary64 number:
      [calcular_estatisticas_f64] is the statistics function with the
      arithmetic of binary64 ([float], ties to even), and what is stated
      on the value of a rate or of a percentage is stated on it.
      [calcular_estatisticas] is the same function with every float read
      as the rational it stands for ([Q]), rounding left out; it carries
      the statements that rounding does not touch: what is counted and
      listed, what is raised, and how the results reach the report.
    - A Python exception is a value of [exception]; code that can raise
      returns a [result].
    - The Unicode tables the code reaches through [str.lower] and through
      the regular expression class [\w] are the fields of the class
      [Unicode]; every general statement holds for every such table.
    - A segment's [start] is a number of whatever type the transcription
      gives it (the class [Number]); [int] is the instance spelled out.
    - The report is a text file: its content is the text written to it, and
      its encoding to bytes is outside the model. *)

From Stdlib Require Import Floats.
From Stdlib Require Import String.
From Stdlib Require Import ZArith QArith List Bool Lia.
From Stdlib Require Import Permutation Sorted.
From Stdlib Require DecimalFacts DecimalPos DecimalZ.
Import ListNotations.
Local Open Scope Z_scope.

(** ** Strings *)

Definition codepoint := Z.
Definition str := list codepoint.

(** Decoder for the UTF-8 bytes of a literal of this file, so that the
    program's constants can be written as they are in the source. *)
Fixpoint utf8_decode (bs : list Z) : str :=
  match bs with
  | [] => []
  | b :: r =>
      if b <? 128 then b :: utf8_decode r
      else if b <? 224 then
        match r with
        | b1 :: r1 => ((b - 192) * 64 + (b1 - 128)) :: utf8_decode r1
        | _ => []
        end
      else if b <? 240 then
        match r with
        | b1 :: b2 :: r2 =>
            ((b - 224) * 4096 + (b1 - 128) * 64 + (b2 - 128)) :: utf8_decode r2
        | _ => []
        end
      else
        match r with
        | b1 :: b2 :: b3 :: r3 =>
            ((b - 240) * 262144 + (b1 - 128) * 4096 + (b2 - 128) * 64 + (b3 - 128))
              :: utf8_decode r3
        | _ => []
        end
  end.

Definition pystr (s : String.string) : str :=
  utf8_decode (map (fun b => Z.of_N (Byte.to_N b)) (String.list_byte_of_string s)).

Definition str_eqb (a b : str) : bool :=
  if list_eq_dec Z.eq_dec a b then true else false.

(** [Py_UNICODE_ISSPACE]: the code points [str.split], [str.strip] and the
    regular expression class [\s] treat as whitespace. *)
Definition is_space (c : codepoint) : bool :=
  ((9 <=? c) && (c <=? 13)) || ((28 <=? c) && (c <=? 32))
  || (c =? 133) || (c =? 160) || (c =? 5760)
  || ((8192 <=? c) && (c <=? 8202))
  || (c =? 8232) || (c =? 8233) || (c =? 8239) || (c =? 8287) || (c =? 12288).

(** [str.lstrip()], [str.rstrip()], [str.strip()] *)
Fixpoint lstrip (s : str) : str :=
  match s with
  | c :: s' => if is_space c then lstrip s' else s
  | [] => []
  end.

Definition rstrip (s : str) : str := rev (lstrip (rev s)).

Definition strip (s : str) : str := rstrip (lstrip s).

(** [str.split()] with no separator: the maximal runs of non-whitespace.
    [cur] is the token being read, in reverse. *)
Fixpoint split_from (cur : str) (s : str) : list str :=
  match s with
  | [] => match cur with [] => [] | _ => [rev cur] end
  | c :: s' =>
      if is_space c then
        match cur with
        | [] => split_from [] s'
        | _ => rev cur :: split_from [] s'
        end
      else split_from (c :: cur) s'
  end.

Definition split (s : str) : list str := split_from [] s.

(** [sep.join(parts)] *)
Fixpoint join (sep : str) (parts : list str) : str :=
  match parts with
  | [] => []
  | [p] => p
  | p :: ps => p ++ sep ++ join sep ps
  end.

(** ** Unicode tables *)

Class Unicode := {
  (** [str.lower()] *)
  str_lower : str -> str;
  (** [str.isalnum()] of a single code point outside ASCII *)
  isalnum_table : codepoint -> bool
}.

(** An instance for the Basic Latin and Latin-1 Supplement blocks, in which
    the program's keyword lists and the texts of the examples lie. *)
Definition latin1_lower_char (c : codepoint) : codepoint :=
  if ((65 <=? c) && (c <=? 90))
     || ((192 <=? c) && (c <=? 222) && negb (c =? 215))
  then c + 32 else c.

Definition latin1_isalnum (c : codepoint) : bool :=
  (c =? 170) || (c =? 178) || (c =? 179) || (c =? 181) || (c =? 185) || (c =? 186)
  || ((188 <=? c) && (c <=? 190))
  || ((192 <=? c) && (c <=? 255) && negb (c =? 215) && negb (c =? 247)).

Definition Latin1 : Unicode :=
  {| str_lower := map latin1_lower_char; isalnum_table := latin1_isalnum |}.

(** ** Exceptions *)

Inductive exception := ZeroDivisionError | ValueError | csv_Error.

Inductive result (A : Type) :=
| Ok (a : A)
| Raise (e : exception).
Arguments Ok {A} a.
Arguments Raise {A} e.

Definition bind {A B} (r : result A) (k : A -> result B) : result B :=
  match r with
  | Ok a => k a
  | Raise e => Raise e
  end.

Declare Scope py_scope.
Delimit Scope py_scope with py.
Notation "x <- c ;; k" := (bind c (fun x => k))
  (at level 61, c at next level, right associativity) : py_scope.
Local Open Scope py_scope.

(** ** Numbers *)

(** [str(n)] for an [int] *)
Fixpoint uint_str (d : Decimal.uint) : str :=
  match d with
  | Decimal.Nil => []
  | Decimal.D0 d => 48 :: uint_str d
  | Decimal.D1 d => 49 :: uint_str d
  | Decimal.D2 d => 50 :: uint_str d
  | Decimal.D3 d => 51 :: uint_str d
  | Decimal.D4 d => 52 :: uint_str d
  | Decimal.D5 d => 53 :: uint_str d
  | Decimal.D6 d => 54 :: uint_str d
  | Decimal.D7 d => 55 :: uint_str d
  | Decimal.D8 d => 56 :: uint_str d
  | Decimal.D9 d => 57 :: uint_str d
  end.

Definition int_str (n : Z) : str :=
  match Z.to_int n with
  | Decimal.Pos d => uint_str d
  | Decimal.Neg d => 45 :: uint_str d
  end.

(** [format(n, "02")] for an [int]: sign first, then zeros up to width 2. *)
Definition zfill (width : nat) (digits : str) : str :=
  repeat 48 (width - length digits) ++ digits.

Definition int_format_02 (n : Z) : str :=
  if n <? 0 then 45 :: zfill 1 (int_str (- n)) else zfill 2 (int_str n).

(** The operations [format_timestamp] applies to its argument, which the
    callers compute from a segment's [start]: whatever number type that is,
    it is multiplied, floor-divided, reduced and formatted. *)
Class Number (T : Type) := {
  num_mul : T -> Z -> T;
  num_floordiv : T -> Z -> T;
  num_mod : T -> Z -> T;
  num_format : T -> str;
  num_format_02 : T -> str
}.

#[export] Instance Number_int : Number Z := {
  num_mul := Z.mul;
  num_floordiv := Z.div;
  num_mod := Z.modulo;
  num_format := int_str;
  num_format_02 := int_format_02
}.

(** [a // b] and [a % b] raise on a zero divisor. *)
Definition floordiv {T} `{Number T} (a : T) (b : Z) : result T :=
  if b =? 0 then Raise ZeroDivisionError else Ok (num_floordiv a b).

Definition modulo {T} `{Number T} (a : T) (b : Z) : result T :=
  if b =? 0 then Raise ZeroDivisionError else Ok (num_mod a b).

(** A numeric value of the program: an [int] or a [float]. *)
Inductive number :=
| PyInt (n : Z)
| PyFloat (q : Q).

Definition number_value (x : number) : Q :=
  match x with
  | PyInt n => inject_Z n
  | PyFloat q => q
  end.

(** [a / b] on floats, each read as the rational it stands for: the
    quotient before it is rounded to binary64. *)
Definition truediv (a b : Q) : result Q :=
  if Qeq_bool b 0 then Raise ZeroDivisionError else Ok (a / b)%Q.

(** ** [format_timestamp] *)

Definition format_timestamp {T} `{Number T} (milliseconds : T) : result str :=
  seconds <- floordiv milliseconds 1000 ;;
  minutes <- floordiv seconds 60 ;;
  seconds <- modulo seconds 60 ;;
  Ok (pystr "(" ++ num_format minutes ++ pystr ":" ++ num_format_02 seconds
      ++ pystr ")").


(** ** [clean_transcription] *)

(** [re.sub(r'\s+', ' ', text)]: every maximal run of whitespace becomes one
    space. [in_run] tells that the previous character was whitespace. *)
Fixpoint sub_spaces_from (in_run : bool) (s : str) : str :=
  match s with
  | [] => []
  | c :: s' =>
      if is_space c then
        if in_run then sub_spaces_from true s' else 32 :: sub_spaces_from true s'
      else c :: sub_spaces_from false s'
  end.

Definition sub_spaces (text : str) : str := sub_spaces_from false text.

(** The class [\w] of a [str] pattern: alphanumeric or underscore. *)
Definition ascii_alnum (c : codepoint) : bool :=
  ((48 <=? c) && (c <=? 57)) || ((65 <=? c) && (c <=? 90))
  || ((97 <=? c) && (c <=? 122)).

Definition is_word `{Unicode} (c : codepoint) : bool :=
  (c =? 95) || (if c <? 128 then ascii_alnum c else isalnum_table c).

(** [\b]: the characters on the two sides differ in being word characters;
    outside the string counts as a non-word character. *)
Definition side_is_word `{Unicode} (c : option codepoint) : bool :=
  match c with
  | Some c => is_word c
  | None => false
  end.

Definition at_boundary `{Unicode} (prev next : option codepoint) : bool :=
  negb (Bool.eqb (side_is_word prev) (side_is_word next)).

(** A literal letter under [re.IGNORECASE]: the letters of the two
    alternatives ([e], [n], [t], [ã], [o]) each match themselves and their
    capital, which lies 32 code points below. *)
Definition matches_ignorecase (p c : codepoint) : bool :=
  (c =? p) || (c =? p - 32).

(** Matching a literal at the head of [s]: the last character matched and
    what follows the match. *)
Fixpoint match_literal (pat s : str) (last : option codepoint)
  : option (option codepoint * str) :=
  match pat with
  | [] => Some (last, s)
  | p :: pat' =>
      match s with
      | c :: s' =>
          if matches_ignorecase p c then match_literal pat' s' (Some c) else None
      | [] => None
      end
  end.

(** One alternative followed by the closing [\b]; the length of the match. *)
Definition match_alternative `{Unicode} (prev : option codepoint) (s : str)
  (pat : str) : option nat :=
  match match_literal pat s prev with
  | Some (last, rest) =>
      if at_boundary last (hd_error rest) then Some (length pat) else None
  | None => None
  end.

(** [\b(e|então)\b] at the head of [s], alternatives tried in order. *)
Definition match_connector `{Unicode} (prev : option codepoint) (s : str)
  : option nat :=
  if at_boundary prev (hd_error s) then
    match match_alternative prev s (pystr "e") with
    | Some n => Some n
    | None => match_alternative prev s (pystr "então")
    end
  else None.

(** [re.sub(r'\b(e|então)\b', r', \1', text, flags=re.IGNORECASE)]: the
    matches are found from left to right and do not overlap; [skip] counts
    the characters of the current match still to be copied. *)
Fixpoint sub_connectors_from `{Unicode} (prev : option codepoint) (skip : nat)
  (s : str) : str :=
  match s with
  | [] => []
  | c :: s' =>
      match skip with
      | S k => c :: sub_connectors_from (Some c) k s'
      | O =>
          match match_connector prev s with
          | Some n => pystr ", " ++ c :: sub_connectors_from (Some c) (n - 1) s'
          | None => c :: sub_connectors_from (Some c) 0 s'
          end
      end
  end.

Definition sub_connectors `{Unicode} (text : str) : str :=
  sub_connectors_from None 0 text.

Definition clean_transcription `{Unicode} (text : str) : str :=
  let text := sub_spaces text in
  let text := sub_connectors text in
  strip text.

(** ** [collections.Counter] *)

(** A [Counter] is a [dict]: its items are kept in the order in which the
    keys were first inserted. *)
Definition counter := list (str * Z).

Fixpoint counter_incr (w : str) (c : counter) : counter :=
  match c with
  | [] => [(w, 1)]
  | (k, n) :: c' =>
      if str_eqb k w then (k, n + 1) :: c' else (k, n) :: counter_incr w c'
  end.

(** [Counter(words)] *)
Definition Counter (words : list str) : counter :=
  fold_left (fun c w => counter_incr w c) words [].

(** [c[w]]: a missing key counts 0. *)
Fixpoint counter_get (c : counter) (w : str) : Z :=
  match c with
  | [] => 0
  | (k, n) :: c' => if str_eqb k w then n else counter_get c' w
  end.

(** [sorted(items, key=itemgetter(1), reverse=True)]: Python's sort is
    stable, also with [reverse=True]; the stable sort is written here as
    an insertion from the right. *)
Fixpoint insert_desc (x : str * Z) (l : list (str * Z)) : list (str * Z) :=
  match l with
  | [] => [x]
  | y :: l' => if snd x <? snd y then y :: insert_desc x l' else x :: l
  end.

Definition most_common (c : counter) : list (str * Z) :=
  fold_right insert_desc [] c.

(** [sum(xs)] *)
Definition py_sum (xs : list Z) : Z := fold_left Z.add xs 0.

(** ** [calcular_estatisticas] *)

Definition MAGIC_WORDS : list str :=
  [ pystr "obrigado"; pystr "obrigada"; pystr "por favor"; pystr "desculpa";
    pystr "desculpe"; pystr "por gentileza"; pystr "bom dia"; pystr "boa tarde";
    pystr "boa noite"; pystr "agradeço"; pystr "agradece"; pystr "gratidão";
    pystr "sinto muito"; pystr "perdão"; pystr "me perdoe"; pystr "com licença" ].

Record estatisticas := {
  total_palavras : Z;
  palavras_por_minuto : Q;
  palavras_ordenadas : list (str * Z);
  percentual_magicas : number
}.

Definition calcular_estatisticas `{Unicode} (texto : str) (duracao_minutos : Q)
  : result estatisticas :=
  let palavras := split (str_lower texto) in
  let total_palavras := Z.of_nat (length palavras) in
  palavras_por_minuto <- truediv (inject_Z total_palavras) duracao_minutos ;;
  let contagem_palavras := Counter palavras in
  let palavras_ordenadas := most_common contagem_palavras in
  let total_magicas :=
    py_sum (map (fun palavra => counter_get contagem_palavras palavra) MAGIC_WORDS) in
  percentual_magicas <-
    (if total_palavras >? 0
     then (ratio <- truediv (inject_Z total_magicas) (inject_Z total_palavras) ;;
           Ok (PyFloat (ratio * 100)))
     else Ok (PyInt 0)) ;;
  Ok {| total_palavras := total_palavras;
        palavras_por_minuto := palavras_por_minuto;
        palavras_ordenadas := palavras_ordenadas;
        percentual_magicas := percentual_magicas |}.

(** ** [calcular_estatisticas] in binary64 *)

(** [float(n)] for an [int]: the double nearest to [n], ties to even.
    (CPython raises OverflowError from 2^1024 on; the operand here is the
    length of a list.) *)
Definition float_of_int (n : Z) : float :=
  SF2Prim (binary_normalize prec emax n 0 false).

(** An [int] as a binary number that is not rounded. *)
Definition int_to_spec (n : Z) : spec_float :=
  match n with
  | Z0 => S754_zero false
  | Zpos p => S754_finite false p 0
  | Zneg p => S754_finite true p 0
  end.

(** The double nearest to the quotient of two [int]s, ties to even: one
    rounding, of the exact quotient. (CPython raises OverflowError where the
    quotient exceeds the largest double; the dividend here is a count
    within the divisor.) *)
Definition int_quotient (a b : Z) : float :=
  SF2Prim (SFdiv prec emax (int_to_spec a) (int_to_spec b)).

(** [a / b] on two [int]s *)
Definition int_truediv (a b : Z) : result float :=
  if b =? 0 then Raise ZeroDivisionError else Ok (int_quotient a b).

(** [a / b] on two [float]s: only a zero divisor (0.0 or -0.0) raises; an
    overflow gives an infinity and an undefined quotient a NaN. *)
Definition float_truediv (a b : float) : result float :=
  if (b =? 0)%float then Raise ZeroDivisionError else Ok (a / b)%float.

(** A numeric value of the program: an [int] or a binary64 [float]. *)
Inductive number_f64 :=
| Int_f64 (n : Z)
| Float_f64 (x : float).

Record estatisticas_f64 := {
  total_palavras_f64 : Z;
  palavras_por_minuto_f64 : float;
  palavras_ordenadas_f64 : list (str * Z);
  percentual_magicas_f64 : number_f64
}.

Definition calcular_estatisticas_f64 `{Unicode} (texto : str) (duracao_minutos : float)
  : result estatisticas_f64 :=
  let palavras := split (str_lower texto) in
  let total_palavras := Z.of_nat (length palavras) in
  palavras_por_minuto <- float_truediv (float_of_int total_palavras) duracao_minutos ;;
  let contagem_palavras := Counter palavras in
  let palavras_ordenadas := most_common contagem_palavras in
  let total_magicas :=
    py_sum (map (fun palavra => counter_get contagem_palavras palavra) MAGIC_WORDS) in
  percentual_magicas <-
    (if total_palavras >? 0
     then (ratio <- int_truediv total_magicas total_palavras ;;
           Ok (Float_f64 (ratio * 100)%float))
     else Ok (Int_f64 0)) ;;
  Ok {| total_palavras_f64 := total_palavras;
        palavras_por_minuto_f64 := palavras_por_minuto;
        palavras_ordenadas_f64 := palavras_ordenadas;
        percentual_magicas_f64 := percentual_magicas |}.

(** ** [analisar_sentimento] *)

Definition positive_words : list str :=
  [ pystr "bom"; pystr "ótimo"; pystr "excelente"; pystr "satisfeito";
    pystr "maravilhoso" ].

Definition negative_words : list str :=
  [ pystr "ruim"; pystr "péssimo"; pystr "horrível"; pystr "insatisfeito";
    pystr "terrível" ].

(** [word in words] *)
Definition str_in (word : str) (words : list str) : bool :=
  existsb (str_eqb word) words.

Definition analisar_sentimento `{Unicode} (transcribed_text : str) : str :=
  let positive_count :=
    py_sum (map (fun _ => 1)
              (filter (fun word => str_in word positive_words)
                 (split (str_lower transcribed_text)))) in
  let negative_count :=
    py_sum (map (fun _ => 1)
              (filter (fun word => str_in word negative_words)
                 (split (str_lower transcribed_text)))) in
  if positive_count >? negative_count then pystr "Satisfeito"
  else if negative_count >? positive_count then pystr "Insatisfeito"
  else pystr "Neutro".

(** ** Segments and [format_transcription] *)

(** One element of [result['segments']]: the fields the program reads. *)
Record segment (T : Type) := { start : T; text : str }.
Arguments start {T} s.
Arguments text {T} s.

(** [for x in xs: body], with the variables the body updates as [s]. *)
Fixpoint for_each {A S} (xs : list A) (body : S -> A -> result S) (s : S)
  : result S :=
  match xs with
  | [] => Ok s
  | x :: xs' => s' <- body s x ;; for_each xs' body s'
  end.

Definition format_transcription {T} `{Number T}
  (transcribed_segments : list (segment T)) : result str :=
  formatted_text <-
    for_each transcribed_segments
      (fun formatted_text segment =>
         timestamp <- format_timestamp (num_mul (start segment) 1000) ;;
         let transcription := strip (text segment) in
         Ok (formatted_text ++ timestamp ++ pystr " " ++ transcription ++ [10; 10]))
      [] ;;
  Ok (strip formatted_text).

(** ** The [csv] writer *)

(** A value put in a row: a [str] or a number. *)
Inductive cell :=
| CStr (s : str)
| CNum (x : number).

(** [repr] of a [float], which the writer applies to the two rates. *)
Class FloatRepr := { float_repr : Q -> str }.

Definition cell_str `{FloatRepr} (v : cell) : str :=
  match v with
  | CStr s => s
  | CNum (PyInt n) => int_str n
  | CNum (PyFloat q) => float_repr q
  end.

(** The [excel] dialect: delimiter comma, quote character the double quote (doubled inside a
    quoted field),
    [QUOTE_MINIMAL], line terminator [\r\n]. A field is quoted when it
    holds the delimiter, the quote character, [\r] or [\n]. *)
Definition csv_special (c : codepoint) : bool :=
  (c =? 44) || (c =? 34) || (c =? 13) || (c =? 10).

Definition csv_escape (c : codepoint) : str :=
  if c =? 34 then [34; 34] else [c].

Definition csv_field (f : str) : str :=
  if existsb csv_special f then 34 :: flat_map csv_escape f ++ [34] else f.

(** [writer.writerow(fields)]: what is appended to the file. A row of one
    empty field is written as a quoted empty field. *)
Definition csv_record (fields : list str) : str :=
  match fields with
  | [ [] ] => [34; 34]
  | _ => join [44] (map csv_field fields)
  end ++ [13; 10].

(** [DictWriter]: a row is a [dict] from field names to values. *)
Definition rowdict := list (str * cell).

Fixpoint dict_get (d : rowdict) (key : str) (default : cell) : cell :=
  match d with
  | [] => default
  | (k, v) :: d' => if str_eqb k key then v else dict_get d' key default
  end.

(** [DictWriter._dict_to_list] with [extrasaction='raise'] and
    [restval='']. *)
Definition dict_to_list (fieldnames : list str) (d : rowdict)
  : result (list cell) :=
  if forallb (fun kv => str_in (fst kv) fieldnames) d
  then Ok (map (fun key => dict_get d key (CStr [])) fieldnames)
  else Raise ValueError.

(** [DictWriter.writerow]; [csvfile] is the text written so far. *)
Definition writerow `{FloatRepr} (fieldnames : list str) (csvfile : str)
  (d : rowdict) : result str :=
  row <- dict_to_list fieldnames d ;;
  Ok (csvfile ++ csv_record (map cell_str row)).

(** [DictWriter.writeheader] *)
Definition writeheader `{FloatRepr} (fieldnames : list str) (csvfile : str)
  : result str :=
  writerow fieldnames csvfile (map (fun k => (k, CStr k)) fieldnames).

(** ** [generate_csv]

    The file is opened for writing, so it starts empty; the result is the
    text the file holds when it is closed. *)
Definition generate_csv {T} `{Number T} `{FloatRepr}
  (transcribed_segments : list (segment T)) (estatisticas : estatisticas)
  : result str :=
  let fieldnames := [pystr "timestamp"; pystr "transcription"] in
  let row (a b : cell) := [(pystr "timestamp", a); (pystr "transcription", b)] in
  csvfile <- writeheader fieldnames [] ;;
  csvfile <-
    for_each transcribed_segments
      (fun csvfile segment =>
         timestamp <- format_timestamp (num_mul (start segment) 1000) ;;
         let transcription := strip (text segment) in
         writerow fieldnames csvfile (row (CStr timestamp) (CStr transcription)))
      csvfile ;;
  csvfile <- writerow fieldnames csvfile [] ;;
  csvfile <- writerow fieldnames csvfile
               (row (CStr (pystr "Estatísticas")) (CStr [])) ;;
  csvfile <- writerow fieldnames csvfile
               (row (CStr (pystr "Total de palavras"))
                    (CNum (PyInt (total_palavras estatisticas)))) ;;
  csvfile <- writerow fieldnames csvfile
               (row (CStr (pystr "Palavras por minuto"))
                    (CNum (PyFloat (palavras_por_minuto estatisticas)))) ;;
  csvfile <- writerow fieldnames csvfile
               (row (CStr (pystr "Percentual de palavras mágicas"))
                    (CNum (percentual_magicas estatisticas))) ;;
  for_each (palavras_ordenadas estatisticas)
    (fun csvfile item =>
       let '(palavra, quantidade) := item in
       writerow fieldnames csvfile (row (CStr palavra) (CNum (PyInt quantidade))))
    csvfile.

(** ** The derivation steps of [upload_audio]

    From the segments of the transcription and [len(audio)], the length of
    the audio in milliseconds, to the values handed to the page. *)
Record resultados := {
  formatted_transcription : str;
  estatisticas_ : estatisticas;
  sentimento : str;
  csv : str
}.

Definition upload_audio {T} `{Number T} `{Unicode} `{FloatRepr}
  (transcribed_segments : list (segment T)) (len_audio : Z) : result resultados :=
  formatted_transcription <- format_transcription transcribed_segments ;;
  duracao_minutos <- truediv (inject_Z len_audio) (inject_Z (1000 * 60)) ;;
  estatisticas <- calcular_estatisticas formatted_transcription duracao_minutos ;;
  let sentimento := analisar_sentimento formatted_transcription in
  csv <- generate_csv transcribed_segments estatisticas ;;
  Ok {| formatted_transcription := formatted_transcription;
        estatisticas_ := estatisticas;
        sentimento := sentimento;
        csv := csv |}.

(** ** Reading the report back

    The program only writes the report. To state what a reader of it
    recovers, this is [csv.reader] over the file opened with [newline=''],
    for the same [excel] dialect: the state machine of the reader, fed the
    characters of each line and then an end-of-line mark. A line of the file
    ends after [\n], or after [\r] when no [\n] follows. The reader's limit on
    the size of a field is a setting of the reader and is not modelled. *)

Inductive parser_state :=
| START_RECORD | START_FIELD | IN_FIELD | IN_QUOTED_FIELD
| QUOTE_IN_QUOTED_FIELD | EAT_CRNL.

Record parser := {
  state : parser_state;
  field : str;
  fields : list str
}.

Definition parse_reset : parser :=
  {| state := START_RECORD; field := []; fields := [] |}.

Definition set_state (p : parser) (s : parser_state) : parser :=
  {| state := s; field := field p; fields := fields p |}.

Definition parse_add_char (p : parser) (c : codepoint) : parser :=
  {| state := state p; field := field p ++ [c]; fields := fields p |}.

Definition parse_save_field (p : parser) : parser :=
  {| state := state p; field := []; fields := fields p ++ [field p] |}.

(** The state after a line break: [None] is the end-of-line mark. *)
Definition after_break (c : option codepoint) : parser_state :=
  match c with
  | None => START_RECORD
  | Some _ => EAT_CRNL
  end.

Definition is_break (c : option codepoint) : bool :=
  match c with
  | None => true
  | Some c => (c =? 10) || (c =? 13)
  end.

Definition parse_start_field (p : parser) (c : option codepoint) : parser :=
  if is_break c then set_state (parse_save_field p) (after_break c)
  else match c with
       | Some ch =>
           if ch =? 34 then set_state p IN_QUOTED_FIELD
           else if ch =? 44 then set_state (parse_save_field p) START_FIELD
           else set_state (parse_add_char p ch) IN_FIELD
       | None => p
       end.

Definition parse_process_char (p : parser) (c : option codepoint)
  : result parser :=
  match state p with
  | START_RECORD =>
      match c with
      | None => Ok p
      | Some ch =>
          if (ch =? 10) || (ch =? 13) then Ok (set_state p EAT_CRNL)
          else Ok (parse_start_field p c)
      end
  | START_FIELD => Ok (parse_start_field p c)
  | IN_FIELD =>
      if is_break c then Ok (set_state (parse_save_field p) (after_break c))
      else match c with
           | Some ch =>
               if ch =? 44 then Ok (set_state (parse_save_field p) START_FIELD)
               else Ok (parse_add_char p ch)
           | None => Ok p
           end
  | IN_QUOTED_FIELD =>
      match c with
      | None => Ok p
      | Some ch =>
          if ch =? 34 then Ok (set_state p QUOTE_IN_QUOTED_FIELD)
          else Ok (parse_add_char p ch)
      end
  | QUOTE_IN_QUOTED_FIELD =>
      match c with
      | Some ch =>
          if ch =? 34 then Ok (set_state (parse_add_char p ch) IN_QUOTED_FIELD)
          else if ch =? 44 then Ok (set_state (parse_save_field p) START_FIELD)
          else if is_break c
               then Ok (set_state (parse_save_field p) (after_break c))
               else Ok (set_state (parse_add_char p ch) IN_FIELD)
      | None => Ok (set_state (parse_save_field p) START_RECORD)
      end
  | EAT_CRNL =>
      match c with
      | None => Ok (set_state p START_RECORD)
      | Some ch => if (ch =? 10) || (ch =? 13) then Ok p else Raise csv_Error
      end
  end.

Definition ends_line (c : codepoint) (rest : str) : bool :=
  (c =? 10)
  || ((c =? 13) && negb (match rest with c2 :: _ => c2 =? 10 | [] => false end)).

(** The input is exhausted: a record under way is returned as it stands. *)
Definition end_of_input (p : parser) : list (list str) :=
  match field p, state p with
  | _ :: _, _ | _, IN_QUOTED_FIELD => [fields (parse_save_field p)]
  | _, _ => []
  end.

(** [list(csv.reader(f))]; [in_line] tells that the current line has
    characters already. *)
Fixpoint reader_from (p : parser) (in_line : bool) (s : str)
  : result (list (list str)) :=
  match s with
  | [] =>
      if in_line then
        p <- parse_process_char p None ;;
        Ok (match state p with
            | START_RECORD => [fields p]
            | _ => end_of_input p
            end)
      else Ok (end_of_input p)
  | c :: s' =>
      p <- parse_process_char p (Some c) ;;
      if ends_line c s' then
        p <- parse_process_char p None ;;
        match state p with
        | START_RECORD =>
            rows <- reader_from parse_reset false s' ;; Ok (fields p :: rows)
        | _ => reader_from p false s'
        end
      else reader_from p true s'
  end.

Definition csv_reader (file : str) : result (list (list str)) :=
  reader_from parse_reset false file.

(** The rows of the segments: those after the header row and before the
    first row whose fields are all empty. *)
Definition blank_row (r : list str) : bool :=
  forallb (fun f => match f with [] => true | _ => false end) r.

Fixpoint until_blank (rows : list (list str)) : list (list str) :=
  match rows with
  | [] => []
  | r :: rows' => if blank_row r then [] else r :: until_blank rows'
  end.

Definition segment_rows (rows : list (list str)) : list (list str) :=
  until_blank (tl rows).

(** ** Vocabulary of the statements *)

(** The two decimal digits of a number below 100. *)
Definition two_digits (n : Z) : str := [48 + n / 10; 48 + n mod 10].

(** The number a string of decimal digits denotes. *)
Definition digits_value (s : str) : Z :=
  fold_left (fun acc c => 10 * acc + (c - 48)) s 0.

(** A decimal numeral without padding: digits only, and no leading zero
    except for the numeral of 0 itself. *)
Definition unpadded (s : str) : Prop :=
  s <> [] /\ Forall (fun c => 48 <= c <= 57) s /\
  (forall s', s = 48 :: s' -> s' = []).

(** The tokens both analyses work on: [text.lower().split()]. *)
Definition tokens `{Unicode} (text : str) : list str := split (str_lower text).

(** How many times the word [w] occurs among tokens. *)
Fixpoint occurrences (w : str) (toks : list str) : Z :=
  match toks with
  | [] => 0
  | t :: toks' => (if str_eqb t w then 1 else 0) + occurrences w toks'
  end.

Definition Zsum (xs : list Z) : Z := fold_right Z.add 0 xs.

(** How many tokens are equal to one of the keywords of a list. *)
Definition keyword_count (keywords : list str) (toks : list str) : Z :=
  Zsum (map (fun k => occurrences k toks) keywords).

(** The position of the first occurrence of [w] among tokens (their number
    when [w] does not occur). *)
Fixpoint first_index (w : str) (toks : list str) : nat :=
  match toks with
  | [] => O
  | t :: toks' => if str_eqb t w then O else S (first_index w toks')
  end.

(** [a] stands somewhere before [b] in [l]. *)
Definition before {A} (l : list A) (a b : A) : Prop :=
  exists l1 l2 l3, l = l1 ++ a :: l2 ++ b :: l3.

(** The entries of a frequency table are in descending order of count. *)
Definition descending (table : list (str * Z)) : Prop :=
  StronglySorted (fun a b => snd b <= snd a) table.

(** The count a frequency table lists for the word [w]; 0 when it lists
    none. *)
Definition table_count (table : list (str * Z)) (w : str) : Z :=
  Zsum (map snd (filter (fun e => str_eqb (fst e) w) table)).

(** What the function returns on a non-zero duration, field by field. *)
Definition estatisticas_de (toks : list str) (duracao_minutos : Q) : estatisticas :=
  let total := Z.of_nat (length toks) in
  {| total_palavras := total;
     palavras_por_minuto := inject_Z total / duracao_minutos;
     palavras_ordenadas := most_common (Counter toks);
     percentual_magicas :=
       if total >? 0
       then PyFloat
              (inject_Z (py_sum (map (fun palavra => counter_get (Counter toks) palavra)
                                   MAGIC_WORDS))
               / inject_Z total * 100)
       else PyInt 0 |}.

(** What the function in binary64 returns on a non-zero duration, field by
    field. *)
Definition estatisticas_f64_de (toks : list str) (duracao_minutos : float)
  : estatisticas_f64 :=
  let total := Z.of_nat (length toks) in
  {| total_palavras_f64 := total;
     palavras_por_minuto_f64 := (float_of_int total / duracao_minutos)%float;
     palavras_ordenadas_f64 := most_common (Counter toks);
     percentual_magicas_f64 :=
       if total >? 0
       then Float_f64
              (int_quotient
                 (py_sum (map (fun palavra => counter_get (Counter toks) palavra)
                            MAGIC_WORDS))
                 total * 100)%float
       else Int_f64 0 |}.

(** The display timestamp of a segment: [format_timestamp] of its start in
    milliseconds (the empty string stands for a failure, which the
    properties exclude). *)
Definition timestamp {T} `{Number T} (seg : segment T) : str :=
  match format_timestamp (num_mul (start seg) 1000) with
  | Ok s => s
  | Raise _ => []
  end.

(** The (timestamp, transcription) pair and the line of a segment. *)
Definition segment_pair {T} `{Number T} (seg : segment T) : str * str :=
  (timestamp seg, strip (text seg)).

Definition segment_line {T} `{Number T} (seg : segment T) : str :=
  fst (segment_pair seg) ++ pystr " " ++ snd (segment_pair seg).

(** A string has no whitespace at either end. *)
Definition no_outer_space (s : str) : Prop :=
  (forall c, hd_error s = Some c -> is_space c = false) /\
  (forall c, hd_error (rev s) = Some c -> is_space c = false).

(** The rows of the report, in the order in which they are written. *)
Definition report_rows {T} `{Number T} `{FloatRepr}
  (segs : list (segment T)) (st : estatisticas) : list (list str) :=
  [pystr "timestamp"; pystr "transcription"]
  :: map (fun seg => [fst (segment_pair seg); snd (segment_pair seg)]) segs
  ++ [ [[]; []];
       [pystr "Estatísticas"; []];
       [pystr "Total de palavras"; int_str (total_palavras st)];
       [pystr "Palavras por minuto"; float_repr (palavras_por_minuto st)];
       [pystr "Percentual de palavras mágicas";
        cell_str (CNum (percentual_magicas st))] ]
  ++ map (fun item => [fst item; int_str (snd item)]) (palavras_ordenadas st).

(** The pair a row of two fields stands for. *)
Definition row_pair (r : list str) : option (str * str) :=
  match r with
  | [a; b] => Some (a, b)
  | _ => None
  end.

(** No position of [s] starts a standalone connector word; [prev] is the
    character before [s]. *)
Fixpoint no_connector `{Unicode} (prev : option codepoint) (s : str) : Prop :=
  match s with
  | [] => True
  | c :: s' => match_connector prev s = None /\ no_connector (Some c) s'
  end.

(** Every whitespace character of [s] is a space that stands alone. *)
Fixpoint single_spaces (s : str) : Prop :=
  match s with
  | [] => True
  | c :: s' =>
      (is_space c = true ->
       c = 32 /\ match s' with d :: _ => is_space d = false | [] => True end)
      /\ single_spaces s'
  end.

(** ** Paths of the upload folder

    [os.path.join] on two components, as [posixpath] has it; the paths the
    handlers build with it; and the file name the page takes from the path
    of the report for its download link. *)

Definition UPLOAD_FOLDER : str := pystr "uploads/".

(** [s.startswith(sep)] and [s.endswith(sep)] for a one-character [sep] *)
Definition startswith_char (s : str) (sep : codepoint) : bool :=
  match s with
  | c :: _ => c =? sep
  | [] => false
  end.

Definition endswith_char (s : str) (sep : codepoint) : bool :=
  startswith_char (rev s) sep.

(** [os.path.join(a, b)] *)
Definition os_path_join (a b : str) : str :=
  if startswith_char b 47 then b
  else if match a with [] => true | _ => endswith_char a 47 end then a ++ b
  else a ++ [47] ++ b.

(** [s.split(sep)] for a one-character [sep]: empty pieces are kept, and
    there is always at least one piece. [cur] is the piece being read, in
    reverse. *)
Fixpoint split_on (sep : codepoint) (cur : str) (s : str) : list str :=
  match s with
  | [] => [rev cur]
  | c :: s' =>
      if c =? sep then rev cur :: split_on sep [] s'
      else split_on sep (c :: cur) s'
  end.

(** [l[-1]]; [None] stands for the [IndexError] of an empty list. *)
Fixpoint item_last (l : list str) : option str :=
  match l with
  | [] => None
  | [x] => Some x
  | _ :: l' => item_last l'
  end.

(** [upload_audio]: the path of the report; [stamp] is
    [datetime.now().strftime('%Y%m%d%H%M%S')]. *)
Definition output_csv_path (stamp : str) : str :=
  os_path_join UPLOAD_FOLDER (pystr "transcription_" ++ stamp ++ pystr ".csv").

(** [render_html]: the [filename] of the download link,
    [output_csv_path.split('/')[-1]]. *)
Definition link_filename (output_csv_path : str) : option str :=
  item_last (split_on 47 [] output_csv_path).

(** [download_file]: the path handed to [send_file]. *)
Definition download_file (filename : str) : str := os_path_join UPLOAD_FOLDER filename.

(** ** Vocabulary of the further statements *)

(** [int(s)] on a decimal numeral with an optional minus sign. *)
Definition int_value (s : str) : Z :=
  match s with
  | 45 :: digits => - digits_value digits
  | _ => digits_value s
  end.

(** The rows of a report that follow the first blank row. *)
Fixpoint after_blank (rows : list (list str)) : list (list str) :=
  match rows with
  | [] => []
  | r :: rows' => if blank_row r then rows' else after_blank rows'
  end.

(** A row of the frequency table, read back: the word and its count. *)
Definition row_entry (r : list str) : option (str * Z) :=
  match r with
  | [w; n] => Some (w, int_value n)
  | _ => None
  end.

(** The characters of a text other than whitespace and commas. *)
Definition letters (s : str) : str :=
  filter (fun c => negb (is_space c) && negb (c =? 44)) s.

(** * Properties *)

(** ** Strings *)

Lemma str_eqb_eq (a b : str) : str_eqb a b = true <-> a = b.
Proof.
  unfold str_eqb. destruct (list_eq_dec Z.eq_dec a b); split; congruence.
Qed.

Lemma str_eqb_refl (a : str) : str_eqb a a = true.
Proof. now apply str_eqb_eq. Qed.

Lemma str_eqb_neq (a b : str) : str_eqb a b = false <-> a <> b.
Proof.
  unfold str_eqb. destruct (list_eq_dec Z.eq_dec a b); split; congruence.
Qed.

Lemma str_eqb_sym (a b : str) : str_eqb a b = str_eqb b a.
Proof.
  unfold str_eqb.
  destruct (list_eq_dec Z.eq_dec a b), (list_eq_dec Z.eq_dec b a); congruence.
Qed.

(** ** [format_timestamp] *)

Lemma int_format_02_two_digits (n : Z) :
  0 <= n < 100 -> int_format_02 n = two_digits n.
Proof.
  intros Hn.
  assert (Hall : forallb (fun k => str_eqb (int_format_02 k) (two_digits k))
                   (map Z.of_nat (seq 0 100)) = true) by (vm_compute; reflexivity).
  rewrite forallb_forall in Hall.
  apply str_eqb_eq, Hall.
  apply in_map_iff. exists (Z.to_nat n). split; [lia|].
  apply in_seq. lia.
Qed.

(** [str(n)] of a natural number is its decimal numeral, without padding. *)
Lemma uint_str_acc (d : Decimal.uint) (acc : positive) :
  fold_left (fun a c => 10 * a + (c - 48)) (uint_str d) (Z.pos acc) =
  Z.pos (Pos.of_uint_acc d acc).
Proof.
  revert acc. induction d; intros acc; cbn [uint_str fold_left Pos.of_uint_acc];
    [reflexivity | rewrite <- IHd; f_equal; lia ..].
Qed.

Lemma uint_str_value (d : Decimal.uint) :
  digits_value (uint_str d) = Z.of_N (Pos.of_uint d).
Proof.
  unfold digits_value.
  induction d; cbn [uint_str fold_left Pos.of_uint]; [reflexivity | exact IHd | ..];
    cbn [Z.of_N]; rewrite <- uint_str_acc; reflexivity.
Qed.

Lemma uint_str_digits (d : Decimal.uint) :
  Forall (fun c => 48 <= c <= 57) (uint_str d).
Proof. induction d; cbn [uint_str]; constructor; (lia || assumption). Qed.

Lemma to_uint_no_leading_zero (p : positive) (l : Decimal.uint) :
  Pos.to_uint p <> Decimal.D0 l.
Proof.
  intros Heq.
  pose proof (DecimalPos.Unsigned.to_of (Pos.to_uint p)) as Hnorm.
  rewrite DecimalPos.Unsigned.of_to in Hnorm. cbn [N.to_uint] in Hnorm.
  unfold Decimal.unorm in Hnorm.
  destruct (Decimal.nzhead (Pos.to_uint p)) eqn:Enz;
    [ now apply (DecimalPos.Unsigned.to_uint_nonzero p)
    | now apply DecimalFacts.nzhead_nonzero in Enz
    | rewrite Heq in Hnorm; discriminate Hnorm .. ].
Qed.

Lemma int_str_unpadded (n : Z) :
  0 <= n -> digits_value (int_str n) = n /\ unpadded (int_str n).
Proof.
  intros Hn. destruct n as [|p|p]; [| |lia].
  - split; [reflexivity|]. split; [discriminate|].
    split; [repeat constructor; lia|]. intros s' Heq. now inversion Heq.
  - unfold int_str. cbn [Z.to_int]. split; [|split; [|split]].
    + rewrite uint_str_value, DecimalPos.Unsigned.of_to. reflexivity.
    + pose proof (DecimalPos.Unsigned.to_uint_nonnil p).
      destruct (Pos.to_uint p); try contradiction; discriminate.
    + apply uint_str_digits.
    + intros s' Heq. exfalso.
      destruct (Pos.to_uint p) as [|d|d|d|d|d|d|d|d|d|d] eqn:Ep;
        cbn [uint_str] in Heq; try discriminate.
      now apply (to_uint_no_leading_zero p d).
Qed.

(** No division of [format_timestamp] can raise: both divisors are non-zero
    constants, for every number type. *)
Lemma format_timestamp_returns {T} `{Number T} (milliseconds : T) :
  format_timestamp milliseconds =
  Ok (pystr "(" ++ num_format (num_floordiv (num_floordiv milliseconds 1000) 60)
      ++ pystr ":"
      ++ num_format_02 (num_mod (num_floordiv milliseconds 1000) 60)
      ++ pystr ")").
Proof. reflexivity. Qed.

Lemma format_timestamp_int (ms : Z) :
  format_timestamp ms =
  Ok (pystr "(" ++ int_str (ms / 60000) ++ pystr ":"
      ++ two_digits ((ms / 1000) mod 60) ++ pystr ")").
Proof.
  rewrite format_timestamp_returns.
  cbn [num_format num_format_02 num_floordiv num_mod Number_int].
  rewrite Z.div_div by lia. change (1000 * 60) with 60000.
  rewrite int_format_02_two_digits; [reflexivity|].
  pose proof (Z.mod_pos_bound (ms / 1000) 60). lia.
Qed.

(** C4, as the code has it: the formatter has no failure case. For every
    offset, of whatever number type and negative or not, it returns a string;
    on an integer offset the string is "(M:SS)" with M the floor of
    offset/60000 (negative for a negative offset) and SS the floor of
    offset/1000 modulo 60, in two digits. *)
Theorem format_timestamp_never_raises :
  (forall (T : Type) (N : Number T) (milliseconds : T),
      exists s, format_timestamp milliseconds = Ok s) /\
  (forall ms : Z,
      format_timestamp ms =
      Ok (pystr "(" ++ int_str (ms / 60000) ++ pystr ":"
          ++ two_digits ((ms / 1000) mod 60) ++ pystr ")")).
Proof.
  split.
  - intros T N ms. rewrite format_timestamp_returns. eauto.
  - exact format_timestamp_int.
Qed.

(** C4, as stated, fails at the offset -1: it is negative, and the formatter
    returns "(-1:59)" instead of raising. *)
Lemma format_timestamp_negative_returns :
  -1 < 0 /\
  format_timestamp (-1) = Ok (pystr "(-1:59)") /\
  ~ (forall ms : Z, ms < 0 -> exists e, format_timestamp ms = Raise e).
Proof.
  split; [lia|]. split; [reflexivity|].
  intros Hall. destruct (Hall (-1)) as [e He]; [lia|]. discriminate He.
Qed.

(** C5: for every non-negative integer offset the result is "(M:SS)" with
    M = floor(offset/60000), written without padding and unbounded, and
    SS = floor(offset/1000) mod 60 in two digits; 0, 61000 and 3600000 give
    "(0:00)", "(1:01)" and "(60:00)". *)
Theorem format_timestamp_nonnegative :
  (forall ms : Z, 0 <= ms ->
      format_timestamp ms =
      Ok (pystr "(" ++ int_str (ms / 60000) ++ pystr ":"
          ++ two_digits ((ms / 1000) mod 60) ++ pystr ")")
      /\ digits_value (int_str (ms / 60000)) = ms / 60000
      /\ unpadded (int_str (ms / 60000))
      /\ 0 <= (ms / 1000) mod 60 < 60) /\
  format_timestamp 0 = Ok (pystr "(0:00)") /\
  format_timestamp 61000 = Ok (pystr "(1:01)") /\
  format_timestamp 3600000 = Ok (pystr "(60:00)").
Proof.
  split; [| repeat split; reflexivity].
  intros ms Hms. split; [apply format_timestamp_int|].
  assert (Hm : 0 <= ms / 60000) by (apply Z.div_pos; lia).
  destruct (int_str_unpadded _ Hm) as [Hv Hu].
  repeat split; try assumption; try apply Hu; apply Z.mod_pos_bound; lia.
Qed.

Lemma format_timestamp_nonnegative_witness :
  0 <= 125000 /\ format_timestamp 125000 = Ok (pystr "(2:05)").
Proof.
  split; [lia|].
  destruct (proj1 format_timestamp_nonnegative 125000) as [Heq _]; [lia|].
  rewrite Heq. reflexivity.
Defined.

(** ** Sums and counts *)

Lemma fold_left_add_shift (xs : list Z) (a : Z) :
  fold_left Z.add xs a = a + fold_left Z.add xs 0.
Proof.
  revert a. induction xs as [|x xs IH]; intros a; cbn; [lia|].
  rewrite (IH (a + x)), (IH x). lia.
Qed.

Lemma py_sum_Zsum (xs : list Z) : py_sum xs = Zsum xs.
Proof.
  unfold py_sum. induction xs as [|x xs IH]; cbn; [reflexivity|].
  rewrite fold_left_add_shift, IH. reflexivity.
Qed.

Lemma py_sum_ones {A} (xs : list A) :
  py_sum (map (fun _ => 1) xs) = Z.of_nat (length xs).
Proof.
  rewrite py_sum_Zsum. induction xs as [|x xs IH]; [reflexivity|].
  cbn [map Zsum fold_right length]. fold (Zsum (map (fun _ : A => 1) xs)).
  rewrite IH. lia.
Qed.

Lemma str_in_In (w : str) (ws : list str) : str_in w ws = true <-> In w ws.
Proof.
  unfold str_in. rewrite existsb_exists. split.
  - intros [x [Hin Heq]]. apply str_eqb_eq in Heq. now subst.
  - intros Hin. exists w. split; [assumption | apply str_eqb_refl].
Qed.

Lemma occurrences_nonneg (w : str) (toks : list str) : 0 <= occurrences w toks.
Proof. induction toks as [|t toks IH]; cbn; [lia|]. destruct (str_eqb t w); lia. Qed.

(** Among distinct keywords, a token is equal to at most one. *)
Lemma keyword_count_cons (keywords : list str) (t : str) (toks : list str) :
  NoDup keywords ->
  keyword_count keywords (t :: toks) =
  (if str_in t keywords then 1 else 0) + keyword_count keywords toks.
Proof.
  unfold keyword_count. induction keywords as [|k ks IH]; intros Hnd; [reflexivity|].
  inversion Hnd as [|? ? Hnotin Hnd']; subst.
  cbn [map Zsum fold_right] in *. fold (Zsum (map (fun k0 => occurrences k0 (t :: toks)) ks)).
  fold (Zsum (map (fun k0 => occurrences k0 toks) ks)).
  rewrite (IH Hnd'). cbn [occurrences str_in existsb].
  fold (str_in t ks).
  destruct (str_eqb t k) eqn:Etk; cbn [orb].
  - apply str_eqb_eq in Etk. subst k.
    destruct (str_in t ks) eqn:Ein; [apply str_in_In in Ein; contradiction | lia].
  - lia.
Qed.

Lemma filter_keyword_count (keywords toks : list str) :
  NoDup keywords ->
  Z.of_nat (length (filter (fun word => str_in word keywords) toks)) =
  keyword_count keywords toks.
Proof.
  intros Hnd. induction toks as [|t toks IH].
  - unfold keyword_count. cbn. induction keywords; [reflexivity|].
    cbn. inversion Hnd; subst. auto.
  - rewrite keyword_count_cons by assumption. cbn [filter].
    destruct (str_in t keywords); cbn [length]; lia.
Qed.

Lemma NoDup_by_eqb (ws : list str) :
  (fix nodup (l : list str) : bool :=
     match l with
     | [] => true
     | x :: l' => negb (str_in x l') && nodup l'
     end) ws = true -> NoDup ws.
Proof.
  induction ws as [|w ws IH]; intros Hb; [constructor|].
  apply andb_true_iff in Hb as [Hn Hr]. constructor; [|auto].
  intros Hin. apply str_in_In in Hin. rewrite Hin in Hn. discriminate.
Qed.

Lemma positive_words_NoDup : NoDup positive_words.
Proof. apply NoDup_by_eqb. vm_compute. reflexivity. Qed.

Lemma negative_words_NoDup : NoDup negative_words.
Proof. apply NoDup_by_eqb. vm_compute. reflexivity. Qed.

Lemma MAGIC_WORDS_NoDup : NoDup MAGIC_WORDS.
Proof. apply NoDup_by_eqb. vm_compute. reflexivity. Qed.

(** ** [analisar_sentimento] *)

Lemma analisar_sentimento_counts `{Unicode} (text : str) :
  analisar_sentimento text =
  let positive_count := keyword_count positive_words (tokens text) in
  let negative_count := keyword_count negative_words (tokens text) in
  if positive_count >? negative_count then pystr "Satisfeito"
  else if negative_count >? positive_count then pystr "Insatisfeito"
  else pystr "Neutro".
Proof.
  unfold analisar_sentimento. rewrite !py_sum_ones.
  rewrite (filter_keyword_count _ _ positive_words_NoDup).
  rewrite (filter_keyword_count _ _ negative_words_NoDup).
  reflexivity.
Qed.

(** C2: the label is "Satisfeito" (Positive) exactly when more tokens of the
    lowercased, whitespace-split text are positive keywords than negative
    ones, "Insatisfeito" (Negative) exactly when more are negative, and
    "Neutro" (Neutral) exactly on a tie, 0/0 included; the three texts of the
    specification are labelled Positive, Negative and Neutral. *)
Theorem analisar_sentimento_decision :
  (forall (U : Unicode) (text : str),
      let positive_count := keyword_count positive_words (tokens text) in
      let negative_count := keyword_count negative_words (tokens text) in
      (analisar_sentimento text = pystr "Satisfeito"
       <-> positive_count > negative_count) /\
      (analisar_sentimento text = pystr "Insatisfeito"
       <-> negative_count > positive_count) /\
      (analisar_sentimento text = pystr "Neutro"
       <-> positive_count = negative_count)) /\
  @analisar_sentimento Latin1 (pystr "o atendimento foi ótimo e excelente")
    = pystr "Satisfeito" /\
  @analisar_sentimento Latin1 (pystr "o atendimento foi péssimo")
    = pystr "Insatisfeito" /\
  @analisar_sentimento Latin1 (pystr "o atendimento foi normal")
    = pystr "Neutro" /\
  @analisar_sentimento Latin1 [] = pystr "Neutro".
Proof.
  split; [| repeat split; vm_compute; reflexivity].
  intros U text pc nc. rewrite analisar_sentimento_counts.
  fold pc nc. cbv zeta.
  destruct (pc >? nc) eqn:E1; [| destruct (nc >? pc) eqn:E2].
  - apply Z.gtb_lt in E1.
    repeat split; intros; try lia; try reflexivity; try discriminate.
  - rewrite Z.gtb_ltb in E1. apply Z.ltb_ge in E1. apply Z.gtb_lt in E2.
    repeat split; intros; try lia; try reflexivity; try discriminate.
  - rewrite Z.gtb_ltb in E1, E2. apply Z.ltb_ge in E1, E2.
    repeat split; intros; try lia; try reflexivity; try discriminate.
Qed.

(** ** [Counter] *)

Lemma Zsum_cons (x : Z) (xs : list Z) : Zsum (x :: xs) = x + Zsum xs.
Proof. reflexivity. Qed.

Lemma counter_incr_get (t w : str) (c : counter) :
  counter_get (counter_incr t c) w =
  (if str_eqb t w then 1 else 0) + counter_get c w.
Proof.
  induction c as [|[k n] c IH]; cbn.
  - destruct (str_eqb t w); lia.
  - destruct (str_eqb k t) eqn:Ekt; cbn.
    + apply str_eqb_eq in Ekt. subst k.
      destruct (str_eqb t w); lia.
    + destruct (str_eqb k w) eqn:Ekw.
      * apply str_eqb_eq in Ekw. subst k. rewrite str_eqb_sym, Ekt. lia.
      * exact IH.
Qed.

Lemma counter_fold_get (toks : list str) (c : counter) (w : str) :
  counter_get (fold_left (fun c w => counter_incr w c) toks c) w =
  occurrences w toks + counter_get c w.
Proof.
  revert c. induction toks as [|t toks IH]; intros c; cbn; [lia|].
  rewrite IH, counter_incr_get. lia.
Qed.

Lemma Counter_get (toks : list str) (w : str) :
  counter_get (Counter toks) w = occurrences w toks.
Proof. unfold Counter. rewrite counter_fold_get. cbn. lia. Qed.

Lemma counter_incr_keys (t : str) (c : counter) :
  map fst (counter_incr t c) =
  if str_in t (map fst c) then map fst c else map fst c ++ [t].
Proof.
  induction c as [|[k n] c IH]; [reflexivity|].
  cbn [counter_incr map fst str_in existsb]. fold (str_in t (map fst c)).
  destruct (str_eqb k t) eqn:Ekt.
  - apply str_eqb_eq in Ekt. subst k. rewrite str_eqb_refl. reflexivity.
  - assert (Etk : str_eqb t k = false).
    { apply str_eqb_neq. apply str_eqb_neq in Ekt. congruence. }
    rewrite Etk. cbn [orb map fst]. rewrite IH.
    destruct (str_in t (map fst c)); reflexivity.
Qed.

Lemma counter_incr_NoDup (t : str) (c : counter) :
  NoDup (map fst c) -> NoDup (map fst (counter_incr t c)).
Proof.
  intros Hnd. rewrite counter_incr_keys.
  destruct (str_in t (map fst c)) eqn:Ein; [assumption|].
  apply NoDup_app; [assumption | repeat constructor; intros [] |].
  intros x Hx [Hxt|[]]. subst x.
  apply str_in_In in Hx. congruence.
Qed.

Lemma counter_incr_positive (t : str) (c : counter) :
  Forall (fun kv => 1 <= snd kv) c ->
  Forall (fun kv => 1 <= snd kv) (counter_incr t c).
Proof.
  induction 1 as [|[k n] c Hk Hc IH]; cbn.
  - repeat constructor. cbn. lia.
  - destruct (str_eqb k t); constructor; cbn in *; try lia; assumption.
Qed.

Lemma counter_incr_sum (t : str) (c : counter) :
  Zsum (map snd (counter_incr t c)) = 1 + Zsum (map snd c).
Proof.
  induction c as [|[k n] c IH]; [reflexivity|].
  cbn [counter_incr]. destruct (str_eqb k t); cbn [map snd]; rewrite !Zsum_cons; lia.
Qed.

(** The invariant of the counting loop. *)
Record counter_ok (c : counter) : Prop := {
  ok_keys : NoDup (map fst c);
  ok_positive : Forall (fun kv => 1 <= snd kv) c
}.

Lemma counter_fold_ok (toks : list str) (c : counter) :
  counter_ok c -> counter_ok (fold_left (fun c w => counter_incr w c) toks c).
Proof.
  revert c. induction toks as [|t toks IH]; intros c Hc; [assumption|].
  cbn. apply IH. destruct Hc. split.
  - now apply counter_incr_NoDup.
  - now apply counter_incr_positive.
Qed.

Lemma Counter_ok (toks : list str) : counter_ok (Counter toks).
Proof. apply counter_fold_ok. split; constructor. Qed.

Lemma counter_fold_sum (toks : list str) (c : counter) :
  Zsum (map snd (fold_left (fun c w => counter_incr w c) toks c)) =
  Z.of_nat (length toks) + Zsum (map snd c).
Proof.
  revert c. induction toks as [|t toks IH]; intros c; cbn [fold_left length]; [lia|].
  rewrite IH, counter_incr_sum. lia.
Qed.

Lemma Counter_sum (toks : list str) :
  Zsum (map snd (Counter toks)) = Z.of_nat (length toks).
Proof. unfold Counter. rewrite counter_fold_sum. cbn. lia. Qed.

(** Looking a key up in a table without repeated keys. *)
Lemma counter_get_In (c : counter) (w : str) (n : Z) :
  NoDup (map fst c) -> In (w, n) c -> counter_get c w = n.
Proof.
  induction c as [|[k m] c IH]; intros Hnd Hin; [destruct Hin|].
  inversion Hnd as [|? ? Hk Hnd']; subst. cbn.
  destruct Hin as [Heq|Hin].
  - inversion Heq; subst. now rewrite str_eqb_refl.
  - destruct (str_eqb k w) eqn:Ekw; [|auto].
    apply str_eqb_eq in Ekw. subst k. exfalso. apply Hk.
    change w with (fst (w, n)). now apply in_map.
Qed.

Lemma counter_get_absent (c : counter) (w : str) :
  ~ In w (map fst c) -> counter_get c w = 0.
Proof.
  induction c as [|[k m] c IH]; intros Hn; [reflexivity|]. cbn in *.
  destruct (str_eqb k w) eqn:Ekw.
  - apply str_eqb_eq in Ekw. tauto.
  - apply IH. tauto.
Qed.

Lemma counter_get_present (c : counter) (w : str) :
  In w (map fst c) -> In (w, counter_get c w) c.
Proof.
  induction c as [|[k m] c IH]; intros Hin; [destruct Hin|]. cbn in *.
  destruct (str_eqb k w) eqn:Ekw.
  - apply str_eqb_eq in Ekw. subst. now left.
  - destruct Hin as [Heq|Hin]; [apply str_eqb_neq in Ekw; contradiction|].
    right. auto.
Qed.

Lemma occurrences_In (w : str) (toks : list str) :
  In w toks <-> 1 <= occurrences w toks.
Proof.
  induction toks as [|t toks IH]; cbn; [lia|].
  pose proof (occurrences_nonneg w toks).
  destruct (str_eqb t w) eqn:E.
  - apply str_eqb_eq in E. split; [lia | auto].
  - apply str_eqb_neq in E. rewrite IH. split; [intros [?|?]; [contradiction | lia] | intros; right; lia].
Qed.

(** The keys of the counter are the words that occur, and each entry holds
    the number of occurrences of its word. *)
Lemma Counter_entry (toks : list str) (w : str) (n : Z) :
  In (w, n) (Counter toks) <-> In w toks /\ n = occurrences w toks.
Proof.
  destruct (Counter_ok toks) as [Hnd Hpos]. split.
  - intros Hin. pose proof (counter_get_In _ _ _ Hnd Hin) as Hget.
    rewrite Counter_get in Hget. split; [|congruence].
    apply occurrences_In. rewrite Hget.
    rewrite Forall_forall in Hpos. apply (Hpos _ Hin).
  - intros [Hin ->]. rewrite <- Counter_get. apply counter_get_present.
    destruct (in_dec (list_eq_dec Z.eq_dec) w (map fst (Counter toks))) as [|Hn];
      [assumption|].
    apply counter_get_absent in Hn. rewrite Counter_get in Hn.
    apply occurrences_In in Hin. lia.
Qed.

(** ** [most_common] *)

Lemma insert_desc_perm (x : str * Z) (l : list (str * Z)) :
  Permutation (insert_desc x l) (x :: l).
Proof.
  induction l as [|y l IH]; cbn; [reflexivity|].
  destruct (snd x <? snd y); [|reflexivity].
  rewrite IH. apply perm_swap.
Qed.

Lemma most_common_perm (c : counter) : Permutation (most_common c) c.
Proof.
  induction c as [|x c IH]; cbn; [reflexivity|].
  rewrite insert_desc_perm. now constructor.
Qed.

Lemma insert_desc_descending (x : str * Z) (l : list (str * Z)) :
  descending l -> descending (insert_desc x l).
Proof.
  unfold descending. induction 1 as [|y l Hl IH Hy]; cbn.
  - repeat constructor.
  - destruct (snd x <? snd y) eqn:E.
    + apply Z.ltb_lt in E. constructor; [assumption|].
      rewrite (Forall_forall (fun b => snd b <= snd y)).
      intros z Hz. apply (Permutation_in _ (insert_desc_perm x l)) in Hz.
      destruct Hz as [<-|Hz]; [lia|].
      rewrite Forall_forall in Hy. auto.
    + apply Z.ltb_ge in E. constructor; [now constructor|].
      constructor; [assumption|].
      rewrite Forall_forall in *. intros z Hz. specialize (Hy z Hz). lia.
Qed.

Lemma most_common_descending (c : counter) : descending (most_common c).
Proof.
  induction c as [|x c IH]; cbn; [constructor|].
  now apply insert_desc_descending.
Qed.

(** Stability: the entries of any one count keep their relative order. *)
Lemma insert_desc_filter (k : Z) (x : str * Z) (l : list (str * Z)) :
  filter (fun e => snd e =? k) (insert_desc x l) =
  filter (fun e => snd e =? k) (x :: l).
Proof.
  induction l as [|y l IH]; [reflexivity|]. cbn [insert_desc].
  destruct (snd x <? snd y) eqn:E; [|reflexivity].
  apply Z.ltb_lt in E. cbn [filter] in *. rewrite IH.
  destruct (snd x =? k) eqn:Ex; [|reflexivity].
  destruct (snd y =? k) eqn:Ey; [|reflexivity].
  apply Z.eqb_eq in Ex, Ey. lia.
Qed.

Lemma most_common_filter (k : Z) (c : counter) :
  filter (fun e => snd e =? k) (most_common c) = filter (fun e => snd e =? k) c.
Proof.
  induction c as [|x c IH]; [reflexivity|].
  cbn [most_common fold_right]. fold (most_common c).
  rewrite insert_desc_filter. cbn [filter]. now rewrite IH.
Qed.

(** *** Relative positions *)

Lemma before_nth {A} (l : list A) (i j : nat) (a b : A) :
  (i < j)%nat -> nth_error l i = Some a -> nth_error l j = Some b ->
  before l a b.
Proof.
  intros Hij Hi Hj.
  apply nth_error_split in Hi as [l1 [l2 [-> Hlen]]].
  rewrite nth_error_app2 in Hj by lia.
  replace (j - length l1)%nat with (S (j - length l1 - 1)) in Hj by lia.
  cbn in Hj. apply nth_error_split in Hj as [l3 [l4 [-> _]]].
  now exists l1, l3, l4.
Qed.

Lemma before_filter_intro {A} (P : A -> bool) (l : list A) (a b : A) :
  before l a b -> P a = true -> P b = true -> before (filter P l) a b.
Proof.
  intros [l1 [l2 [l3 ->]]] Ha Hb.
  exists (filter P l1), (filter P l2), (filter P l3).
  rewrite filter_app. cbn. rewrite Ha, filter_app. cbn. now rewrite Hb.
Qed.

Lemma before_cons {A} (x : A) (l : list A) (a b : A) :
  before (x :: l) a b <-> (x = a /\ In b l) \/ before l a b.
Proof.
  split.
  - intros [l1 [l2 [l3 Heq]]]. destruct l1 as [|y l1]; cbn in Heq.
    + inversion Heq; subst. left. split; [reflexivity|].
      apply in_or_app. right. now left.
    + inversion Heq; subst. right. now exists l1, l2, l3.
  - intros [[-> Hin]|[l1 [l2 [l3 ->]]]].
    + apply in_split in Hin as [l2 [l3 ->]]. now exists [], l2, l3.
    + now exists (x :: l1), l2, l3.
Qed.

Lemma before_filter_elim {A} (P : A -> bool) (l : list A) (a b : A) :
  before (filter P l) a b -> before l a b.
Proof.
  induction l as [|x l IH]; cbn.
  - intros [l1 [l2 [l3 Heq]]]. destruct l1; discriminate.
  - destruct (P x).
    + rewrite !before_cons. intros [[-> Hin]|Hb]; [left | right; auto].
      split; [reflexivity|]. apply filter_In in Hin. tauto.
    + intros Hb. apply before_cons. right. auto.
Qed.

Lemma before_map {A B} (f : A -> B) (l : list A) (a b : A) :
  before l a b -> before (map f l) (f a) (f b).
Proof.
  intros [l1 [l2 [l3 ->]]]. exists (map f l1), (map f l2), (map f l3).
  rewrite map_app. cbn. now rewrite map_app.
Qed.

Lemma before_snoc {A} (l : list A) (x a b : A) :
  before (l ++ [x]) a b -> before l a b \/ (In a l /\ b = x).
Proof.
  induction l as [|y l IH]; cbn.
  - intros [l1 [l2 [l3 Heq]]].
    destruct l1 as [|? [|? ?]]; cbn in Heq; inversion Heq.
    destruct l2; discriminate.
  - rewrite !before_cons. intros [[-> Hin]|Hb].
    + apply in_app_or in Hin as [Hin|[<-|[]]]; [left; left; tauto | right; split; [now left | reflexivity]].
    + destruct (IH Hb) as [?|[? ?]]; [left; right; assumption | right; split; [now right | assumption]].
Qed.

(** *** First occurrences *)

Lemma first_index_lt (w : str) (toks : list str) :
  In w toks -> (first_index w toks < length toks)%nat.
Proof.
  induction toks as [|t toks IH]; intros Hin; [destruct Hin|]. cbn.
  destruct (str_eqb t w) eqn:E; [lia|].
  apply str_eqb_neq in E. destruct Hin; [contradiction|].
  specialize (IH H). lia.
Qed.

Lemma first_index_app (w : str) (toks more : list str) :
  In w toks -> first_index w (toks ++ more) = first_index w toks.
Proof.
  induction toks as [|t toks IH]; intros Hin; [destruct Hin|]. cbn.
  destruct (str_eqb t w) eqn:E; [reflexivity|].
  apply str_eqb_neq in E. destruct Hin; [contradiction|]. now rewrite IH.
Qed.

Lemma first_index_new (w : str) (toks : list str) :
  ~ In w toks -> first_index w (toks ++ [w]) = length toks.
Proof.
  induction toks as [|t toks IH]; intros Hn; cbn.
  - now rewrite str_eqb_refl.
  - destruct (str_eqb t w) eqn:E.
    + apply str_eqb_eq in E. subst. exfalso. apply Hn. now left.
    + rewrite IH; [reflexivity|]. intros Hin. apply Hn. now right.
Qed.

Lemma Counter_keys (toks : list str) (w : str) :
  In w (map fst (Counter toks)) <-> In w toks.
Proof.
  rewrite in_map_iff. split.
  - intros [[k n] [Hk Hin]]. cbn in Hk. subst k.
    apply Counter_entry in Hin. tauto.
  - intros Hin. exists (w, occurrences w toks). split; [reflexivity|].
    now apply Counter_entry.
Qed.

Lemma Counter_snoc (toks : list str) (t : str) :
  Counter (toks ++ [t]) = counter_incr t (Counter toks).
Proof. unfold Counter. now rewrite fold_left_app. Qed.

(** The keys of the counter stand in the order of first occurrence. *)
Lemma Counter_keys_order (toks : list str) (w1 w2 : str) :
  before (map fst (Counter toks)) w1 w2 ->
  (first_index w1 toks < first_index w2 toks)%nat.
Proof.
  revert w1 w2. induction toks as [|t toks IH] using rev_ind; intros w1 w2 Hb.
  - destruct Hb as [l1 [l2 [l3 Heq]]]. destruct l1; discriminate.
  - rewrite Counter_snoc, counter_incr_keys in Hb.
    assert (Hold : before (map fst (Counter toks)) w1 w2 ->
                   (first_index w1 (toks ++ [t]) < first_index w2 (toks ++ [t]))%nat).
    { intros Hb'. pose proof (IH _ _ Hb') as Hlt.
      destruct Hb' as [l1 [l2 [l3 Heq]]].
      assert (H1 : In w1 toks).
      { apply Counter_keys. rewrite Heq. apply in_or_app. right. now left. }
      assert (H2 : In w2 toks).
      { apply Counter_keys. rewrite Heq. apply in_or_app. right. right.
        apply in_or_app. right. now left. }
      now rewrite !first_index_app. }
    destruct (str_in t (map fst (Counter toks))) eqn:Ein; [auto|].
    apply before_snoc in Hb as [Hb|[Hin ->]]; [auto|].
    apply (proj1 (Counter_keys toks w1)) in Hin.
    assert (Hnt : ~ In t toks).
    { intros Hc. apply Counter_keys, str_in_In in Hc. congruence. }
    rewrite (first_index_app w1), first_index_new by assumption.
    now apply first_index_lt.
Qed.

(** Where two entries of the sorted table have the same count, the earlier
    one is the word seen first. *)
Lemma most_common_ties (toks : list str) (i j : nat) (w1 w2 : str) (n : Z) :
  (i < j)%nat ->
  nth_error (most_common (Counter toks)) i = Some (w1, n) ->
  nth_error (most_common (Counter toks)) j = Some (w2, n) ->
  (first_index w1 toks < first_index w2 toks)%nat.
Proof.
  intros Hij Hi Hj. apply Counter_keys_order.
  apply (before_map fst _ (w1, n) (w2, n)).
  apply (before_filter_elim (fun e => snd e =? n)).
  rewrite <- most_common_filter.
  apply before_filter_intro; [| apply Z.eqb_refl | apply Z.eqb_refl].
  exact (before_nth _ _ _ _ _ Hij Hi Hj).
Qed.

(** ** [split] *)

Lemma split_from_no_space (cur s t : str) :
  Forall (fun c => is_space c = false) cur ->
  In t (split_from cur s) ->
  t <> [] /\ Forall (fun c => is_space c = false) t.
Proof.
  revert cur. induction s as [|c s IH]; intros cur Hcur Hin; cbn in Hin.
  - destruct cur as [|c0 cur]; [destruct Hin|].
    destruct Hin as [<-|[]]. split.
    + cbn. intros Heq. apply app_eq_nil in Heq as [_ Heq]. discriminate.
    + apply Forall_rev. assumption.
  - destruct (is_space c) eqn:Ec.
    + destruct cur as [|c0 cur].
      * apply (IH [] (Forall_nil _) Hin).
      * destruct Hin as [<-|Hin]; [|apply (IH [] (Forall_nil _) Hin)].
        split; [|apply Forall_rev; assumption].
        cbn. intros Heq. apply app_eq_nil in Heq as [_ Heq]. discriminate.
    + apply (IH (c :: cur)); [constructor|]; assumption.
Qed.

(** A token holds no whitespace. *)
Lemma split_no_space (s t : str) (c : codepoint) :
  In t (split s) -> In c t -> is_space c = false.
Proof.
  intros Ht Hc. destruct (split_from_no_space [] s t (Forall_nil _) Ht) as [_ Hall].
  rewrite Forall_forall in Hall. auto.
Qed.

(** ** [calcular_estatisticas] *)

Lemma truediv_nonzero (a b : Q) : ~ b == 0 -> truediv a b = Ok (a / b)%Q.
Proof.
  intros Hb. unfold truediv. destruct (Qeq_bool b 0) eqn:E; [|reflexivity].
  apply Qeq_bool_iff in E. contradiction.
Qed.

Lemma truediv_zero (a b : Q) : b == 0 -> truediv a b = Raise ZeroDivisionError.
Proof.
  intros Hb. unfold truediv. apply Qeq_bool_iff in Hb. now rewrite Hb.
Qed.

Lemma inject_Z_nonzero (n : Z) : 0 < n -> ~ inject_Z n == 0.
Proof. intros Hn. unfold Qeq. cbn. lia. Qed.

Lemma calcular_estatisticas_returns `{Unicode} (texto : str) (duracao_minutos : Q) :
  ~ duracao_minutos == 0 ->
  calcular_estatisticas texto duracao_minutos =
  Ok (estatisticas_de (tokens texto) duracao_minutos).
Proof.
  intros Hd. unfold calcular_estatisticas, estatisticas_de, tokens.
  rewrite (truediv_nonzero _ _ Hd). cbn [bind].
  destruct (Z.of_nat (length (split (str_lower texto))) >? 0) eqn:E; [|reflexivity].
  rewrite truediv_nonzero; [reflexivity|].
  apply inject_Z_nonzero. now apply Z.gtb_lt in E.
Qed.

Lemma calcular_estatisticas_zero `{Unicode} (texto : str) (duracao_minutos : Q) :
  duracao_minutos == 0 ->
  calcular_estatisticas texto duracao_minutos = Raise ZeroDivisionError.
Proof.
  intros Hd. unfold calcular_estatisticas. now rewrite (truediv_zero _ _ Hd).
Qed.

(** *** The sorted table lists the counter's counts *)

Lemma table_count_perm (t1 t2 : list (str * Z)) (w : str) :
  Permutation t1 t2 -> table_count t1 w = table_count t2 w.
Proof.
  unfold table_count. induction 1 as [|x l l' Hp IH|x y l|l l' l'' H1 IH1 H2 IH2].
  - reflexivity.
  - cbn [filter]. destruct (str_eqb (fst x) w); cbn [map];
      rewrite ?Zsum_cons; now rewrite ?IH.
  - cbn [filter]. destruct (str_eqb (fst x) w), (str_eqb (fst y) w); cbn [map];
      rewrite ?Zsum_cons; lia.
  - congruence.
Qed.

Lemma Zsum_perm (xs ys : list Z) : Permutation xs ys -> Zsum xs = Zsum ys.
Proof.
  induction 1; rewrite ?Zsum_cons; lia.
Qed.

Lemma table_count_absent (c : counter) (w : str) :
  ~ In w (map fst c) -> table_count c w = 0.
Proof.
  unfold table_count. induction c as [|[k n] c IH]; intros Hn; [reflexivity|].
  cbn [filter fst map In] in *. destruct (str_eqb k w) eqn:E.
  - apply str_eqb_eq in E. tauto.
  - apply IH. tauto.
Qed.

Lemma table_count_get (c : counter) (w : str) :
  NoDup (map fst c) -> table_count c w = counter_get c w.
Proof.
  induction c as [|[k n] c IH]; intros Hnd; [reflexivity|].
  inversion Hnd as [|? ? Hk Hnd']; subst. cbn [counter_get].
  unfold table_count in *. cbn [filter fst].
  destruct (str_eqb k w) eqn:E.
  - apply str_eqb_eq in E. subst k. cbn [map snd]. rewrite Zsum_cons.
    fold (table_count c w). rewrite (table_count_absent _ _ Hk). lia.
  - auto.
Qed.

Lemma most_common_count (toks : list str) (w : str) :
  table_count (most_common (Counter toks)) w = occurrences w toks.
Proof.
  rewrite (table_count_perm _ _ w (most_common_perm _)).
  rewrite table_count_get by apply Counter_ok.
  apply Counter_get.
Qed.

Lemma occurrences_absent (w : str) (toks : list str) :
  ~ In w toks -> occurrences w toks = 0.
Proof.
  intros Hn. pose proof (occurrences_nonneg w toks) as Hge.
  destruct (Z.eq_dec (occurrences w toks) 0) as [|Hne]; [assumption|].
  exfalso. apply Hn, occurrences_In. lia.
Qed.

(** The sum over the magic words, read on the sorted table. *)
Lemma total_magicas_table (toks : list str) :
  py_sum (map (fun palavra => counter_get (Counter toks) palavra) MAGIC_WORDS) =
  Zsum (map (table_count (most_common (Counter toks))) MAGIC_WORDS).
Proof.
  rewrite py_sum_Zsum. f_equal. apply map_ext.
  intros w. now rewrite Counter_get, most_common_count.
Qed.

Lemma total_magicas_bounds (toks : list str) :
  0 <= py_sum (map (fun palavra => counter_get (Counter toks) palavra) MAGIC_WORDS)
    <= Z.of_nat (length toks).
Proof.
  rewrite py_sum_Zsum.
  rewrite (map_ext _ (fun k => occurrences k toks)) by (intros; apply Counter_get).
  fold (keyword_count MAGIC_WORDS toks).
  rewrite <- (filter_keyword_count _ _ MAGIC_WORDS_NoDup).
  pose proof (filter_length_le (fun word => str_in word MAGIC_WORDS) toks). lia.
Qed.

Lemma percentual_range (m t : Z) :
  0 <= m <= t -> 0 < t ->
  (0 <= inject_Z m / inject_Z t * 100 /\ inject_Z m / inject_Z t * 100 <= 100)%Q.
Proof.
  intros Hm Ht. destruct t as [|p|p]; try lia.
  unfold Qle, Qdiv, Qmult, Qinv, inject_Z. cbn. lia.
Qed.

Lemma positive_duration_nonzero (d : Q) : (0 < d)%Q -> ~ d == 0.
Proof. intros Hd Heq. rewrite Heq in Hd. discriminate. Qed.

(** A word that holds a whitespace character is no token, so the table
    lists nothing for it. *)
Lemma multi_word_count `{Unicode} (texto w : str) (c : codepoint) :
  In c w -> is_space c = true ->
  table_count (most_common (Counter (tokens texto))) w = 0.
Proof.
  intros Hc Hs. rewrite most_common_count. apply occurrences_absent.
  intros Hin. pose proof (split_no_space _ _ _ Hin Hc). congruence.
Qed.

(** *** The function in binary64 *)

Lemma SFmul_comm (p e : Z) (x y : spec_float) : SFmul p e x y = SFmul p e y x.
Proof.
  destruct x as [sx|sx| |sx mx ex], y as [sy|sy| |sy my ey]; cbn [SFmul];
    rewrite ?(xorb_comm sx sy); try reflexivity.
  now rewrite Pos.mul_comm, Z.add_comm.
Qed.

(** The product of two doubles does not depend on their order. *)
Lemma float_mul_comm (x y : float) : (x * y)%float = (y * x)%float.
Proof.
  apply Prim2SF_inj. rewrite !mul_spec. apply SFmul_comm.
Qed.

(** A positive double is not a zero. *)
Lemma float_positive_nonzero (d : float) :
  (0 <? d)%float = true -> (d =? 0)%float = false.
Proof.
  rewrite ltb_spec, FloatAxioms.eqb_spec.
  change (Prim2SF 0) with (S754_zero false).
  destruct (Prim2SF d) as [s|s| |s m e]; cbn; try discriminate;
    destruct s; intros; try discriminate; reflexivity.
Qed.

Lemma calcular_estatisticas_f64_returns `{Unicode} (texto : str) (duracao_minutos : float) :
  (duracao_minutos =? 0)%float = false ->
  calcular_estatisticas_f64 texto duracao_minutos =
  Ok (estatisticas_f64_de (tokens texto) duracao_minutos).
Proof.
  intros Hd. unfold calcular_estatisticas_f64, estatisticas_f64_de, tokens.
  unfold float_truediv. rewrite Hd. cbn [bind].
  destruct (Z.of_nat (length (split (str_lower texto))) >? 0) eqn:E; [|reflexivity].
  unfold int_truediv.
  destruct (Z.of_nat (length (split (str_lower texto))) =? 0) eqn:E0; [|reflexivity].
  apply Z.gtb_lt in E. apply Z.eqb_eq in E0. lia.
Qed.

Lemma calcular_estatisticas_f64_zero `{Unicode} (texto : str) (duracao_minutos : float) :
  (duracao_minutos =? 0)%float = true ->
  calcular_estatisticas_f64 texto duracao_minutos = Raise ZeroDivisionError.
Proof.
  intros Hd. unfold calcular_estatisticas_f64, float_truediv. now rewrite Hd.
Qed.

(** The two readings of the arithmetic count the same words and list the
    same table. *)
Lemma calcular_estatisticas_f64_counts `{Unicode} (texto : str) (d : float) (q : Q) :
  (d =? 0)%float = false -> ~ q == 0 ->
  exists st64 st,
    calcular_estatisticas_f64 texto d = Ok st64 /\
    calcular_estatisticas texto q = Ok st /\
    total_palavras_f64 st64 = total_palavras st /\
    palavras_ordenadas_f64 st64 = palavras_ordenadas st.
Proof.
  intros Hd Hq. exists (estatisticas_f64_de (tokens texto) d),
                       (estatisticas_de (tokens texto) q).
  split; [now apply calcular_estatisticas_f64_returns|].
  split; [now apply calcular_estatisticas_returns|].
  split; reflexivity.
Qed.

(** C1: on a positive duration the function returns, and the percentage of
    magic words is, in binary64, 100 times the quotient by the number of
    words of the sum, over the fixed list of magic words, of the count the
    frequency table lists for each (0 for a word it does not list): the
    double nearest to the quotient, times 100, in either order of the two
    factors. It is the int 0 when there is no word. A word that holds
    whitespace, such as "por favor", is never listed and contributes 0. For
    "obrigado obrigado teste" and one minute: 3 words, the table
    [("obrigado",2); ("teste",1)], and (2/3)*100 per cent, which is the
    double 66.66666666666666. *)
Theorem percentual_magicas_formula :
  (forall (U : Unicode) (texto : str) (duracao_minutos : float),
      (0 <? duracao_minutos)%float = true ->
      exists st,
        calcular_estatisticas_f64 texto duracao_minutos = Ok st /\
        total_palavras_f64 st = Z.of_nat (length (tokens texto)) /\
        (0 < total_palavras_f64 st ->
         let total_magicas :=
           Zsum (map (table_count (palavras_ordenadas_f64 st)) MAGIC_WORDS) in
         int_truediv total_magicas (total_palavras_f64 st) =
         Ok (int_quotient total_magicas (total_palavras_f64 st)) /\
         percentual_magicas_f64 st =
         Float_f64 (100 * int_quotient total_magicas (total_palavras_f64 st))%float /\
         percentual_magicas_f64 st =
         Float_f64 (int_quotient total_magicas (total_palavras_f64 st) * 100)%float) /\
        (total_palavras_f64 st = 0 -> percentual_magicas_f64 st = Int_f64 0) /\
        (forall (w : str) (c : codepoint),
            In c w -> is_space c = true ->
            table_count (palavras_ordenadas_f64 st) w = 0) /\
        table_count (palavras_ordenadas_f64 st) (pystr "por favor") = 0) /\
  (exists st,
      @calcular_estatisticas_f64 Latin1 (pystr "obrigado obrigado teste") 1 = Ok st /\
      total_palavras_f64 st = 3 /\
      palavras_ordenadas_f64 st = [(pystr "obrigado", 2); (pystr "teste", 1)] /\
      percentual_magicas_f64 st = Float_f64 (2 / 3 * 100)%float /\
      (2 / 3 * 100)%float = (0x1.0aaaaaaaaaaaap+6)%float).
Proof.
  split.
  - intros U texto d Hd.
    exists (estatisticas_f64_de (tokens texto) d).
    split; [apply calcular_estatisticas_f64_returns, float_positive_nonzero, Hd|].
    split; [reflexivity|].
    cbn [estatisticas_f64_de total_palavras_f64 palavras_ordenadas_f64
         percentual_magicas_f64].
    split; [|split; [|split]].
    + intros Hpos. cbv zeta. split; [|split].
      * unfold int_truediv.
        destruct (Z.of_nat (length (tokens texto)) =? 0) eqn:E0; [|reflexivity].
        apply Z.eqb_eq in E0. lia.
      * apply Z.gtb_lt in Hpos. rewrite Hpos, total_magicas_table.
        now rewrite float_mul_comm.
      * apply Z.gtb_lt in Hpos. now rewrite Hpos, total_magicas_table.
    + intros H0. rewrite H0. reflexivity.
    + intros w c. apply multi_word_count.
    + apply (multi_word_count texto (pystr "por favor") 32); [|reflexivity].
      vm_compute. tauto.
  - eexists. split; [vm_compute; reflexivity|].
    repeat split; vm_compute; reflexivity.
Qed.

Lemma percentual_magicas_formula_witness :
  exists st,
    @calcular_estatisticas_f64 Latin1 (pystr "obrigado por favor")
      (0x1p-1)%float = Ok st /\
    total_palavras_f64 st = 3 /\
    percentual_magicas_f64 st = Float_f64 (0x1.0aaaaaaaaaaaap+5)%float.
Proof.
  destruct (proj1 percentual_magicas_formula Latin1
              (pystr "obrigado por favor") (0x1p-1)%float)
    as [st [Hst [Htotal _]]]; [reflexivity|].
  exists st. split; [exact Hst|]. split; [rewrite Htotal; reflexivity|].
  pose proof Hst as Hrun. vm_compute in Hrun.
  injection Hrun as <-. reflexivity.
Defined.

(** The quotient is rounded before it is multiplied: for one magic word in
    three the percentage is 33.33333333333333, the double below the one
    nearest to 100/3, which is what 100 * 1 / 3 gives. *)
Remark percentual_magicas_rounding :
  (exists st,
      @calcular_estatisticas_f64 Latin1 (pystr "obrigado a b") 1 = Ok st /\
      percentual_magicas_f64 st = Float_f64 (0x1.0aaaaaaaaaaaap+5)%float) /\
  (100 * 1 / 3)%float = (0x1.0aaaaaaaaaaabp+5)%float /\
  int_quotient 100 3 = (0x1.0aaaaaaaaaaabp+5)%float.
Proof.
  split; [eexists; split; vm_compute; reflexivity|].
  split; vm_compute; reflexivity.
Qed.

(** C6: on a non-zero duration the function returns, and its ordered
    (word, count) sequence is in descending order of count; where two
    entries have the same count, the earlier one is the word whose first
    occurrence among the tokens of the text comes first. The sequence is a
    function of the text alone. *)
Theorem palavras_ordenadas_order (U : Unicode) (texto : str) (duracao_minutos : Q) :
  ~ duracao_minutos == 0 ->
  exists st,
    calcular_estatisticas texto duracao_minutos = Ok st /\
    palavras_ordenadas st = most_common (Counter (tokens texto)) /\
    descending (palavras_ordenadas st) /\
    (forall (i j : nat) (w1 w2 : str) (n : Z),
        (i < j)%nat ->
        nth_error (palavras_ordenadas st) i = Some (w1, n) ->
        nth_error (palavras_ordenadas st) j = Some (w2, n) ->
        (first_index w1 (tokens texto) < first_index w2 (tokens texto))%nat).
Proof.
  intros Hd. exists (estatisticas_de (tokens texto) duracao_minutos).
  split; [now apply calcular_estatisticas_returns|].
  cbn [estatisticas_de palavras_ordenadas].
  split; [reflexivity|]. split; [apply most_common_descending|].
  intros i j w1 w2 n. apply most_common_ties.
Qed.

Lemma palavras_ordenadas_order_witness :
  exists st,
    @calcular_estatisticas Latin1 (pystr "b a c a b d") 2 = Ok st /\
    palavras_ordenadas st =
    [(pystr "b", 2); (pystr "a", 2); (pystr "c", 1); (pystr "d", 1)].
Proof.
  destruct (palavras_ordenadas_order Latin1 (pystr "b a c a b d") 2)
    as [st [Hst [Htable _]]]; [discriminate|].
  exists st. split; [exact Hst|]. rewrite Htable. reflexivity.
Defined.

(** C7, as the code has it: the function raises exactly on a zero duration
    (0.0 or -0.0: the division raises ZeroDivisionError); on every other
    duration, a negative one, an infinite one or a NaN included, it returns,
    and words per minute is the binary64 quotient of the number of words by
    the duration, whatever that is: negative, infinite or NaN. *)
Theorem calcular_estatisticas_duration (U : Unicode) (texto : str)
    (duracao_minutos : float) :
  ((duracao_minutos =? 0)%float = true ->
   calcular_estatisticas_f64 texto duracao_minutos = Raise ZeroDivisionError) /\
  ((duracao_minutos =? 0)%float = false ->
   exists st,
     calcular_estatisticas_f64 texto duracao_minutos = Ok st /\
     palavras_por_minuto_f64 st =
     (float_of_int (Z.of_nat (length (tokens texto))) / duracao_minutos)%float).
Proof.
  split.
  - apply calcular_estatisticas_f64_zero.
  - intros Hd. exists (estatisticas_f64_de (tokens texto) duracao_minutos).
    split; [now apply calcular_estatisticas_f64_returns|]. reflexivity.
Qed.

Lemma calcular_estatisticas_duration_witness :
  @calcular_estatisticas_f64 Latin1 (pystr "bom dia") 0 = Raise ZeroDivisionError /\
  @calcular_estatisticas_f64 Latin1 (pystr "bom dia") (-0) = Raise ZeroDivisionError /\
  (exists st,
      @calcular_estatisticas_f64 Latin1 (pystr "bom dia") (-2) = Ok st /\
      palavras_por_minuto_f64 st = (-1)%float) /\
  (exists st,
      @calcular_estatisticas_f64 Latin1 (pystr "bom dia") (0x1p-1074)%float = Ok st /\
      palavras_por_minuto_f64 st = infinity) /\
  (exists st,
      @calcular_estatisticas_f64 Latin1 (pystr "bom dia") nan = Ok st /\
      palavras_por_minuto_f64 st = nan).
Proof.
  split; [|split; [|split; [|split]]].
  - apply (proj1 (calcular_estatisticas_duration Latin1 (pystr "bom dia") 0)).
    reflexivity.
  - apply (proj1 (calcular_estatisticas_duration Latin1 (pystr "bom dia") (-0))).
    reflexivity.
  - destruct (proj2 (calcular_estatisticas_duration Latin1 (pystr "bom dia") (-2)))
      as [st [Hst Hppm]]; [reflexivity|].
    exists st. split; [exact Hst|]. rewrite Hppm. reflexivity.
  - destruct (proj2 (calcular_estatisticas_duration Latin1 (pystr "bom dia")
                       (0x1p-1074)%float))
      as [st [Hst Hppm]]; [reflexivity|].
    exists st. split; [exact Hst|]. rewrite Hppm. reflexivity.
  - destruct (proj2 (calcular_estatisticas_duration Latin1 (pystr "bom dia") nan))
      as [st [Hst Hppm]]; [reflexivity|].
    exists st. split; [exact Hst|]. rewrite Hppm. reflexivity.
Defined.

(** C7, as stated, fails at the duration -1.0, which is not positive: on
    the text "a" the function returns, with -1.0 words per minute. *)
Lemma calcular_estatisticas_negative_returns :
  (-1 <=? 0)%float = true /\
  (exists st,
      @calcular_estatisticas_f64 Latin1 (pystr "a") (-1) = Ok st /\
      palavras_por_minuto_f64 st = (-1)%float) /\
  ~ (forall (U : Unicode) (texto : str) (duracao_minutos : float),
        (duracao_minutos <=? 0)%float = true ->
        exists e, calcular_estatisticas_f64 texto duracao_minutos = Raise e).
Proof.
  split; [reflexivity|]. split.
  - eexists. split; vm_compute; reflexivity.
  - intros Hall. destruct (Hall Latin1 (pystr "a") (-1)%float) as [e He]; [reflexivity|].
    vm_compute in He. discriminate He.
Qed.

(** C10: on a positive duration the function returns a value in which the
    counts of the ordered sequence add up to the number of words, no word is
    listed twice, the words listed are exactly the tokens of the text, each
    with its number of occurrences, and the percentage of magic words lies
    between 0 and 100. *)
Theorem estatisticas_invariants (U : Unicode) (texto : str) (duracao_minutos : Q) :
  (0 < duracao_minutos)%Q ->
  exists st,
    calcular_estatisticas texto duracao_minutos = Ok st /\
    total_palavras st = Z.of_nat (length (tokens texto)) /\
    Zsum (map snd (palavras_ordenadas st)) = total_palavras st /\
    NoDup (map fst (palavras_ordenadas st)) /\
    (forall w : str,
        In w (tokens texto) <->
        exists n, In (w, n) (palavras_ordenadas st)) /\
    (forall (w : str) (n : Z),
        In (w, n) (palavras_ordenadas st) ->
        n = occurrences w (tokens texto) /\ 1 <= n) /\
    (0 <= number_value (percentual_magicas st)
     /\ number_value (percentual_magicas st) <= 100)%Q.
Proof.
  intros Hd. exists (estatisticas_de (tokens texto) duracao_minutos).
  split; [apply calcular_estatisticas_returns, positive_duration_nonzero, Hd|].
  cbn [estatisticas_de total_palavras palavras_ordenadas percentual_magicas].
  pose proof (most_common_perm (Counter (tokens texto))) as Hperm.
  assert (Hin : forall e, In e (most_common (Counter (tokens texto)))
                          <-> In e (Counter (tokens texto))).
  { intros e. split; apply Permutation_in; [assumption | now symmetry]. }
  split; [reflexivity|]. split; [|split; [|split; [|split]]].
  - rewrite (Zsum_perm _ (map snd (Counter (tokens texto)))).
    + apply Counter_sum.
    + now apply Permutation_map.
  - apply (Permutation_NoDup (l := map fst (Counter (tokens texto)))).
    + apply Permutation_map. now symmetry.
    + apply Counter_ok.
  - intros w. split.
    + intros Hw. exists (occurrences w (tokens texto)).
      apply Hin. now apply Counter_entry.
    + intros [n Hn]. apply Hin, Counter_entry in Hn. tauto.
  - intros w n Hn. apply Hin in Hn. pose proof Hn as Hn'.
    apply Counter_entry in Hn as [Hw ->]. split; [reflexivity|].
    now apply occurrences_In.
  - destruct (Z.of_nat (length (tokens texto)) >? 0) eqn:E.
    + apply percentual_range; [apply total_magicas_bounds | now apply Z.gtb_lt].
    + split; discriminate.
Qed.

Lemma estatisticas_invariants_witness :
  exists st,
    @calcular_estatisticas Latin1 (pystr "Bom dia, obrigado! Obrigado") 3 = Ok st /\
    total_palavras st = 4 /\
    Zsum (map snd (palavras_ordenadas st)) = 4.
Proof.
  destruct (estatisticas_invariants Latin1 (pystr "Bom dia, obrigado! Obrigado") 3)
    as [st [Hst [Htotal [Hsum _]]]]; [reflexivity|].
  exists st. split; [exact Hst|]. rewrite Hsum, Htotal. split; reflexivity.
Defined.

(** A text without words: no rate, no entry, no percentage. *)
Remark calcular_estatisticas_no_words (U : Unicode) (texto : str) (duracao_minutos : Q) :
  tokens texto = [] -> ~ duracao_minutos == 0 ->
  exists st,
    calcular_estatisticas texto duracao_minutos = Ok st /\
    total_palavras st = 0 /\ palavras_por_minuto st == 0 /\
    palavras_ordenadas st = [] /\ percentual_magicas st = PyInt 0.
Proof.
  intros Htok Hd. exists (estatisticas_de (tokens texto) duracao_minutos).
  split; [now apply calcular_estatisticas_returns|].
  rewrite Htok. cbn [estatisticas_de total_palavras palavras_por_minuto
                     palavras_ordenadas percentual_magicas length Z.of_nat].
  repeat split.
Qed.

(** ** [strip] *)

Lemma lstrip_app_spaces (p z : str) :
  Forall (fun c => is_space c = true) p -> lstrip (p ++ z) = lstrip z.
Proof.
  induction 1 as [|c p Hc Hp IH]; [reflexivity|]. cbn. now rewrite Hc.
Qed.

Lemma lstrip_all_space (x : str) :
  lstrip x = [] -> Forall (fun c => is_space c = true) x.
Proof.
  induction x as [|c x IH]; intros Hx; [constructor|]. cbn in Hx.
  destruct (is_space c) eqn:E; [|discriminate]. constructor; auto.
Qed.

Lemma lstrip_app_nonspace (x w : str) :
  lstrip x <> [] -> lstrip (x ++ w) = lstrip x ++ w.
Proof.
  induction x as [|c x IH]; intros Hx; [contradiction|]. cbn in *.
  destruct (is_space c); [auto | reflexivity].
Qed.

Lemma lstrip_suffix (x : str) :
  exists p, x = p ++ lstrip x /\ Forall (fun c => is_space c = true) p.
Proof.
  induction x as [|c x [p [Hx Hp]]]; [exists []; split; [reflexivity | constructor]|].
  cbn. destruct (is_space c) eqn:E.
  - exists (c :: p). split; [cbn; congruence | now constructor].
  - exists []. split; [reflexivity | constructor].
Qed.

Lemma lstrip_head (x : str) (c : codepoint) :
  hd_error (lstrip x) = Some c -> is_space c = false.
Proof.
  induction x as [|d x IH]; cbn; [discriminate|].
  destruct (is_space d) eqn:E; [assumption|]. cbn. congruence.
Qed.

Lemma lstrip_idempotent (x : str) : lstrip (lstrip x) = lstrip x.
Proof.
  induction x as [|d x IH]; cbn; [reflexivity|].
  destruct (is_space d) eqn:E; [assumption|]. cbn. now rewrite E.
Qed.

Lemma rstrip_prefix (x : str) :
  exists q, x = rstrip x ++ q /\ Forall (fun c => is_space c = true) q.
Proof.
  unfold rstrip. destruct (lstrip_suffix (rev x)) as [p [Hx Hp]].
  exists (rev p). split; [|now apply Forall_rev].
  rewrite <- rev_app_distr, <- Hx. now rewrite rev_involutive.
Qed.

Lemma rstrip_app_spaces (x w : str) :
  Forall (fun c => is_space c = true) w -> rstrip (x ++ w) = rstrip x.
Proof.
  intros Hw. unfold rstrip. rewrite rev_app_distr.
  rewrite lstrip_app_spaces; [reflexivity | now apply Forall_rev].
Qed.

Lemma rstrip_all_space (x : str) :
  Forall (fun c => is_space c = true) x -> rstrip x = [].
Proof.
  intros Hx. rewrite <- (app_nil_l x). rewrite rstrip_app_spaces by assumption.
  reflexivity.
Qed.

(** Whitespace added at the end is stripped with the rest. *)
Lemma strip_app_spaces (x w : str) :
  Forall (fun c => is_space c = true) w -> strip (x ++ w) = strip x.
Proof.
  intros Hw. unfold strip. destruct (lstrip x) as [|c y] eqn:Ex.
  - apply lstrip_all_space in Ex.
    rewrite lstrip_app_spaces by assumption.
    destruct (lstrip_suffix w) as [p [Hp _]].
    rewrite rstrip_all_space; [reflexivity|].
    rewrite Forall_forall in *. intros d Hd. apply Hw. rewrite Hp.
    apply in_or_app. now right.
  - rewrite lstrip_app_nonspace by (rewrite Ex; discriminate).
    rewrite Ex. now apply rstrip_app_spaces.
Qed.

Lemma strip_no_outer_space (x : str) : no_outer_space (strip x).
Proof.
  unfold no_outer_space, strip. split; intros c Hc.
  - destruct (rstrip_prefix (lstrip x)) as [q [Hq _]].
    apply (lstrip_head x). rewrite Hq.
    destruct (rstrip (lstrip x)); [discriminate | exact Hc].
  - unfold rstrip in Hc. rewrite rev_involutive in Hc.
    now apply lstrip_head in Hc.
Qed.

(** ** [format_transcription] *)

Lemma format_timestamp_timestamp {T} `{Number T} (seg : segment T) :
  format_timestamp (num_mul (start seg) 1000) = Ok (timestamp seg).
Proof. unfold timestamp. now rewrite format_timestamp_returns. Qed.

Lemma format_transcription_loop {T} `{Number T} (segs : list (segment T)) (acc : str) :
  for_each segs
    (fun formatted_text segment =>
       timestamp <- format_timestamp (num_mul (start segment) 1000) ;;
       let transcription := strip (text segment) in
       Ok (formatted_text ++ timestamp ++ pystr " " ++ transcription ++ [10; 10]))
    acc
  = Ok (acc ++ concat (map (fun seg => segment_line seg ++ [10; 10]) segs)).
Proof.
  revert acc. induction segs as [|seg segs IH]; intros acc; cbn [for_each map concat].
  - now rewrite app_nil_r.
  - rewrite format_timestamp_timestamp. cbn [bind]. rewrite IH.
    unfold segment_line, segment_pair. cbn [fst snd].
    now rewrite <- !app_assoc.
Qed.

Lemma concat_lines_join (sep : str) (parts : list str) :
  parts <> [] ->
  concat (map (fun p => p ++ sep) parts) = join sep parts ++ sep.
Proof.
  induction parts as [|p ps IH]; intros Hne; [contradiction|].
  destruct ps as [|p' ps].
  - cbn. now rewrite app_nil_r.
  - cbn [map concat join] in *. rewrite IH by discriminate.
    now rewrite <- !app_assoc.
Qed.

Lemma format_transcription_join {T} `{Number T} (segs : list (segment T)) :
  format_transcription segs =
  Ok (strip (join [10; 10] (map segment_line segs))).
Proof.
  unfold format_transcription. rewrite format_transcription_loop. cbn [bind app].
  f_equal. destruct segs as [|seg segs]; [reflexivity|].
  rewrite <- (map_map segment_line (fun l => l ++ [10; 10])).
  rewrite concat_lines_join by discriminate.
  apply strip_app_spaces. repeat constructor.
Qed.

(** ** [generate_csv] *)

Lemma writerow_pair `{FloatRepr} (csvfile : str) (a b : cell) :
  writerow [pystr "timestamp"; pystr "transcription"] csvfile
    [(pystr "timestamp", a); (pystr "transcription", b)]
  = Ok (csvfile ++ csv_record [cell_str a; cell_str b]).
Proof. reflexivity. Qed.

Lemma writerow_empty `{FloatRepr} (csvfile : str) :
  writerow [pystr "timestamp"; pystr "transcription"] csvfile []
  = Ok (csvfile ++ csv_record [[]; []]).
Proof. reflexivity. Qed.

Lemma generate_csv_segments {T} `{Number T} `{FloatRepr}
  (segs : list (segment T)) (csvfile : str) :
  for_each segs
    (fun csvfile segment =>
       timestamp <- format_timestamp (num_mul (start segment) 1000) ;;
       let transcription := strip (text segment) in
       writerow [pystr "timestamp"; pystr "transcription"] csvfile
         [(pystr "timestamp", CStr timestamp);
          (pystr "transcription", CStr transcription)])
    csvfile
  = Ok (csvfile ++
        concat (map csv_record
                  (map (fun seg => [fst (segment_pair seg); snd (segment_pair seg)])
                     segs))).
Proof.
  revert csvfile. induction segs as [|seg segs IH]; intros csvfile;
    cbn [for_each map concat].
  - now rewrite app_nil_r.
  - rewrite format_timestamp_timestamp. cbn [bind].
    rewrite writerow_pair. cbn [bind cell_str]. rewrite IH.
    cbn [segment_pair fst snd]. now rewrite <- app_assoc.
Qed.

Lemma generate_csv_words `{FloatRepr} (items : list (str * Z)) (csvfile : str) :
  for_each items
    (fun csvfile item =>
       let '(palavra, quantidade) := item in
       writerow [pystr "timestamp"; pystr "transcription"] csvfile
         [(pystr "timestamp", CStr palavra);
          (pystr "transcription", CNum (PyInt quantidade))])
    csvfile
  = Ok (csvfile ++
        concat (map csv_record
                  (map (fun item => [fst item; int_str (snd item)]) items))).
Proof.
  revert csvfile. induction items as [|[w n] items IH]; intros csvfile;
    cbn [for_each map concat].
  - now rewrite app_nil_r.
  - rewrite writerow_pair. cbn [bind cell_str]. rewrite IH.
    cbn [fst snd]. now rewrite <- app_assoc.
Qed.

(** The report is the rows of [report_rows], each written as one record;
    writing it never fails. *)
Lemma generate_csv_rows {T} `{Number T} `{FloatRepr}
  (segs : list (segment T)) (st : estatisticas) :
  generate_csv segs st = Ok (concat (map csv_record (report_rows segs st))).
Proof.
  unfold generate_csv, writeheader. cbn [map].
  rewrite writerow_pair. cbn [bind].
  rewrite generate_csv_segments. cbn [bind].
  rewrite writerow_empty. cbn [bind].
  repeat (rewrite writerow_pair; cbn [bind]).
  rewrite generate_csv_words.
  unfold report_rows. cbn [map concat cell_str app].
  rewrite !map_app, !concat_app. cbn [map concat].
  rewrite <- !app_assoc. cbn [app]. rewrite ?app_nil_r.
  reflexivity.
Qed.

(** ** The reader recovers what the writer wrote *)

Lemma csv_special_false (c : codepoint) :
  csv_special c = false ->
  (c =? 44) = false /\ (c =? 34) = false /\ (c =? 13) = false /\ (c =? 10) = false.
Proof.
  unfold csv_special. intros Hc.
  repeat (apply orb_false_elim in Hc as [Hc ?]). auto.
Qed.

Lemma ends_line_plain (c : codepoint) (s : str) :
  (c =? 13) = false -> (c =? 10) = false -> ends_line c s = false.
Proof. unfold ends_line. now intros -> ->. Qed.

(** Inside an unquoted field: plain characters are added to the field. *)
Lemma read_plain (f acc : str) (fs : list str) (rest : str) :
  Forall (fun c => csv_special c = false) f ->
  reader_from {| state := IN_FIELD; field := acc; fields := fs |} true (f ++ rest)
  = reader_from {| state := IN_FIELD; field := acc ++ f; fields := fs |} true rest.
Proof.
  intros Hf. revert acc. induction Hf as [|c f Hc Hf IH]; intros acc.
  - now rewrite app_nil_r.
  - apply csv_special_false in Hc as [H44 [H34 [H13 H10]]].
    cbn [app reader_from]. unfold parse_process_char at 1.
    cbn [state is_break]. rewrite H10, H13, H44. cbn [orb bind].
    rewrite ends_line_plain by assumption.
    unfold parse_add_char. cbn [state field fields].
    rewrite IH. now rewrite <- app_assoc.
Qed.

(** Inside a quoted field: every character is added to the field, a doubled
    quote as one quote, line breaks included; the closing quote ends it. *)
Lemma read_quoted (f acc : str) (fs : list str) (b : bool) (rest : str) :
  reader_from {| state := IN_QUOTED_FIELD; field := acc; fields := fs |} b
    (flat_map csv_escape f ++ 34 :: rest)
  = reader_from {| state := QUOTE_IN_QUOTED_FIELD; field := acc ++ f; fields := fs |}
      true rest.
Proof.
  revert acc b. induction f as [|c f IH]; intros acc b.
  - cbn [flat_map app reader_from]. rewrite app_nil_r. reflexivity.
  - cbn [flat_map]. unfold csv_escape at 1.
    destruct (c =? 34) eqn:E34.
    + apply Z.eqb_eq in E34. subst c.
      cbn [app reader_from]. unfold parse_process_char at 1. cbn [state].
      change (34 =? 34) with true. cbn [bind]. cbn [ends_line Z.eqb orb andb].
      change (ends_line 34 (34 :: flat_map csv_escape f ++ 34 :: rest)) with false.
      cbn iota. unfold parse_process_char at 1. cbn [state set_state].
      change (34 =? 34) with true. cbn [bind].
      change (ends_line 34 (flat_map csv_escape f ++ 34 :: rest)) with false.
      cbn iota. unfold parse_add_char, set_state. cbn [state field fields].
      rewrite IH. now rewrite <- app_assoc.
    + cbn [app reader_from]. unfold parse_process_char at 1. cbn [state].
      rewrite E34. cbn [bind].
      destruct (ends_line c (flat_map csv_escape f ++ 34 :: rest)).
      * unfold parse_process_char at 1. cbn [parse_add_char state bind].
        unfold parse_add_char. rewrite IH. now rewrite <- app_assoc.
      * unfold parse_add_char. rewrite IH. now rewrite <- app_assoc.
Qed.

(** At the start of a record, a character that is no line break is handled
    as at the start of a field. *)
Lemma read_record_start (fs : list str) (b : bool) (c : codepoint) (s : str) :
  (c =? 10) = false -> (c =? 13) = false ->
  reader_from {| state := START_RECORD; field := []; fields := fs |} b (c :: s)
  = reader_from {| state := START_FIELD; field := []; fields := fs |} b (c :: s).
Proof.
  intros H10 H13. cbn [reader_from]. unfold parse_process_char.
  cbn [state]. now rewrite H10, H13.
Qed.

Lemma csv_field_plain (f : str) :
  existsb csv_special f = false -> Forall (fun c => csv_special c = false) f.
Proof.
  intros Hf. apply Forall_forall. intros c Hc.
  destruct (csv_special c) eqn:E; [|reflexivity].
  assert (existsb csv_special f = true) by (apply existsb_exists; eauto).
  congruence.
Qed.

(** A written field never starts with a line break. *)
Lemma csv_field_head (f : str) (c : codepoint) (s : str) :
  csv_field f = c :: s -> (c =? 10) = false /\ (c =? 13) = false.
Proof.
  unfold csv_field. destruct (existsb csv_special f) eqn:E.
  - intros Heq. inversion Heq. split; reflexivity.
  - intros ->. apply csv_field_plain in E. inversion E as [|? ? Hc _]; subst.
    apply csv_special_false in Hc. tauto.
Qed.

(** A field and the delimiter after it. *)
Lemma read_field_delimiter (f : str) (fs : list str) (b : bool) (rest : str) :
  reader_from {| state := START_FIELD; field := []; fields := fs |} b
    (csv_field f ++ 44 :: rest)
  = reader_from {| state := START_FIELD; field := []; fields := fs ++ [f] |} true rest.
Proof.
  unfold csv_field. destruct (existsb csv_special f) eqn:E.
  - cbn [app]. rewrite <- app_assoc. cbn [app reader_from].
    unfold parse_process_char at 1. cbn [state bind].
    change (parse_start_field {| state := START_FIELD; field := []; fields := fs |}
              (Some 34))
      with {| state := IN_QUOTED_FIELD; field := []; fields := fs |}.
    change (ends_line 34 (flat_map csv_escape f ++ 34 :: 44 :: rest)) with false.
    cbn iota. rewrite read_quoted. cbn [app reader_from].
    reflexivity.
  - apply csv_field_plain in E. destruct E as [|c f Hc Hf].
    + reflexivity.
    + pose proof (csv_special_false _ Hc) as [H44 [H34 [H13 H10]]].
      cbn [app reader_from]. unfold parse_process_char at 1.
      cbn [state]. unfold parse_start_field, is_break. rewrite H10, H13, H34, H44.
      cbn [orb bind]. rewrite ends_line_plain by assumption.
      unfold parse_add_char, set_state. cbn [state field fields app].
      rewrite (read_plain f [c] fs (44 :: rest) Hf).
      reflexivity.
Qed.

(** A field and the line terminator after it: the record is complete. *)
Lemma read_field_terminator (f : str) (fs : list str) (b : bool) (rest : str) :
  reader_from {| state := START_FIELD; field := []; fields := fs |} b
    (csv_field f ++ 13 :: 10 :: rest)
  = (rows <- reader_from parse_reset false rest ;; Ok ((fs ++ [f]) :: rows)).
Proof.
  unfold csv_field. destruct (existsb csv_special f) eqn:E.
  - cbn [app]. rewrite <- app_assoc. cbn [app reader_from].
    unfold parse_process_char at 1. cbn [state bind].
    change (parse_start_field {| state := START_FIELD; field := []; fields := fs |}
              (Some 34))
      with {| state := IN_QUOTED_FIELD; field := []; fields := fs |}.
    change (ends_line 34 (flat_map csv_escape f ++ 34 :: 13 :: 10 :: rest)) with false.
    cbn iota. rewrite read_quoted. cbn [app reader_from].
    reflexivity.
  - apply csv_field_plain in E. destruct E as [|c f Hc Hf].
    + reflexivity.
    + pose proof (csv_special_false _ Hc) as [H44 [H34 [H13 H10]]].
      cbn [app reader_from]. unfold parse_process_char at 1.
      cbn [state]. unfold parse_start_field, is_break. rewrite H10, H13, H34, H44.
      cbn [orb bind]. rewrite ends_line_plain by assumption.
      unfold parse_add_char, set_state. cbn [state field fields app].
      rewrite (read_plain f [c] fs (13 :: 10 :: rest) Hf).
      reflexivity.
Qed.

(** The fields of a record after the first. *)
Lemma read_fields (row : list str) (fs : list str) (b : bool) (rest : str) :
  row <> [] ->
  reader_from {| state := START_FIELD; field := []; fields := fs |} b
    (join [44] (map csv_field row) ++ 13 :: 10 :: rest)
  = (rows <- reader_from parse_reset false rest ;; Ok ((fs ++ row) :: rows)).
Proof.
  revert fs b. induction row as [|f row IH]; intros fs b Hne; [contradiction|].
  destruct row as [|f' row].
  - cbn [map join]. apply read_field_terminator.
  - change (join [44] (map csv_field (f :: f' :: row)))
      with (csv_field f ++ [44] ++ join [44] (map csv_field (f' :: row))).
    rewrite <- !app_assoc. cbn [app].
    rewrite read_field_delimiter. rewrite IH by discriminate.
    now rewrite <- app_assoc.
Qed.

Lemma read_record_start_field (f : str) (c : codepoint) (fs : list str)
  (b : bool) (rest : str) :
  (c =? 10) = false -> (c =? 13) = false -> (f <> [] \/ c = 44) ->
  reader_from {| state := START_RECORD; field := []; fields := fs |} b
    (csv_field f ++ c :: rest)
  = reader_from {| state := START_FIELD; field := []; fields := fs |} b
      (csv_field f ++ c :: rest).
Proof.
  intros H10 H13 Hf. destruct (csv_field f) as [|d s] eqn:Ef.
  - cbn [app]. now apply read_record_start.
  - destruct (csv_field_head _ _ _ Ef). cbn [app]. now apply read_record_start.
Qed.

(** One record. *)
Lemma read_record (row : list str) (rest : str) :
  reader_from parse_reset false (csv_record row ++ rest)
  = (rows <- reader_from parse_reset false rest ;; Ok (row :: rows)).
Proof.
  unfold parse_reset at 1.
  destruct row as [|f row]; [reflexivity|].
  destruct row as [|f' row].
  - destruct f as [|c f]; [reflexivity|].
    unfold csv_record. cbn [map join]. rewrite <- app_assoc. cbn [app].
    destruct (csv_field (c :: f)) as [|d s] eqn:Ef.
    + unfold csv_field in Ef. destruct (existsb csv_special (c :: f)); discriminate.
    + destruct (csv_field_head _ _ _ Ef) as [H10 H13].
      cbn [app]. rewrite read_record_start by assumption.
      change (d :: s ++ 13 :: 10 :: rest) with ((d :: s) ++ 13 :: 10 :: rest).
      rewrite <- Ef. apply read_field_terminator.
  - assert (Hrec : csv_record (f :: f' :: row) ++ rest =
                   csv_field f ++ 44 :: join [44] (map csv_field (f' :: row))
                   ++ 13 :: 10 :: rest).
    { unfold csv_record.
      change (join [44] (map csv_field (f :: f' :: row)))
        with (csv_field f ++ [44] ++ join [44] (map csv_field (f' :: row))).
      destruct f; rewrite <- !app_assoc; reflexivity. }
    rewrite Hrec. rewrite read_record_start_field by (auto; reflexivity).
    rewrite read_field_delimiter. apply read_fields. discriminate.
Qed.

(** Reading back the records of any rows gives the rows. *)
Theorem csv_reader_writer (rows : list (list str)) :
  csv_reader (concat (map csv_record rows)) = Ok rows.
Proof.
  unfold csv_reader. induction rows as [|row rows IH]; [reflexivity|].
  cbn [map concat]. rewrite read_record, IH. reflexivity.
Qed.

(** ** The report and the pipeline *)

Lemma timestamp_nonempty {T} `{Number T} (seg : segment T) :
  exists s, timestamp seg = 40 :: s.
Proof.
  unfold timestamp. rewrite format_timestamp_returns. eexists. reflexivity.
Qed.

Lemma until_blank_app (rows more : list (list str)) (blank : list str) :
  Forall (fun r => blank_row r = false) rows -> blank_row blank = true ->
  until_blank (rows ++ blank :: more) = rows.
Proof.
  intros Hrows Hblank. induction Hrows as [|r rows Hr Hrows IH]; cbn.
  - now rewrite Hblank.
  - now rewrite Hr, IH.
Qed.

Lemma segment_rows_report {T} `{Number T} `{FloatRepr}
  (segs : list (segment T)) (st : estatisticas) :
  segment_rows (report_rows segs st) =
  map (fun seg => [fst (segment_pair seg); snd (segment_pair seg)]) segs.
Proof.
  unfold segment_rows, report_rows. cbn [tl].
  cbn [app]. apply until_blank_app; [|reflexivity].
  apply Forall_forall. intros r Hr. apply in_map_iff in Hr as [seg [<- _]].
  cbn [segment_pair fst snd]. destruct (timestamp_nonempty seg) as [s ->].
  reflexivity.
Qed.

(** C8: the assembled transcript is the lines "{timestamp} {text}" of the
    segments, in order, with the timestamp computed by the formatter from
    start * 1000 and the text stripped, joined by a blank line, and the
    whole stripped. In the pipeline this text, as it is, is what the page
    receives and what both the statistics and the sentiment are computed
    on; the pipeline returns whenever the audio is not of length 0. *)
Theorem format_transcription_assembly (T : Type) (N : Number T) (U : Unicode)
  (F : FloatRepr) (segs : list (segment T)) :
  let assembled := strip (join [10; 10] (map segment_line segs)) in
  format_transcription segs = Ok assembled /\
  (forall seg : segment T,
      format_timestamp (num_mul (start seg) 1000) = Ok (timestamp seg) /\
      segment_line seg = timestamp seg ++ pystr " " ++ strip (text seg)) /\
  (forall len_audio : Z,
      len_audio <> 0 ->
      exists r,
        upload_audio segs len_audio = Ok r /\
        formatted_transcription r = assembled /\
        calcular_estatisticas assembled (inject_Z len_audio / inject_Z (1000 * 60))
        = Ok (estatisticas_ r) /\
        sentimento r = analisar_sentimento assembled).
Proof.
  intros assembled. split; [apply format_transcription_join|].
  split; [intros seg; split; [apply format_timestamp_timestamp | reflexivity]|].
  intros len Hlen. unfold upload_audio.
  rewrite format_transcription_join. cbn [bind]. fold assembled.
  rewrite truediv_nonzero by discriminate. cbn [bind].
  assert (Hd : ~ (inject_Z len / inject_Z (1000 * 60) == 0)%Q).
  { unfold Qeq, Qdiv, Qmult, Qinv, inject_Z. cbn. lia. }
  rewrite (calcular_estatisticas_returns _ _ Hd). cbn [bind].
  rewrite generate_csv_rows. cbn [bind].
  eexists. split; [reflexivity|]. cbn [formatted_transcription estatisticas_ sentimento].
  repeat split; reflexivity.
Qed.

Lemma format_transcription_assembly_witness :
  exists r,
    @upload_audio Z Number_int Latin1 {| float_repr := fun _ => pystr "1.0" |}
      [ {| start := 0; text := pystr " bom dia " |};
        {| start := 61; text := pystr "obrigado" |} ] 120000 = Ok r /\
    formatted_transcription r = pystr "(0:00) bom dia" ++ [10; 10] ++ pystr "(1:01) obrigado".
Proof.
  destruct (format_transcription_assembly Z Number_int Latin1
              {| float_repr := fun _ => pystr "1.0" |}
              [ {| start := 0; text := pystr " bom dia " |};
                {| start := 61; text := pystr "obrigado" |} ])
    as [_ [_ Hrun]].
  destruct (Hrun 120000) as [r [Hr [Htext _]]]; [lia|].
  exists r. split; [exact Hr|]. rewrite Htext. reflexivity.
Defined.

(** C9: for any segments and any statistics value the report is written
    without failure, and reading it back gives rows of which those between
    the header row and the first blank row are, in order, exactly the
    (timestamp, transcription) pairs of the segments, the same pairs the
    assembled transcript is made of. *)
Theorem report_round_trip (T : Type) (N : Number T) (F : FloatRepr)
  (segs : list (segment T)) (st : estatisticas) :
  exists file rows,
    generate_csv segs st = Ok file /\
    csv_reader file = Ok rows /\
    map row_pair (segment_rows rows) = map (fun seg => Some (segment_pair seg)) segs /\
    length (segment_rows rows) = length segs /\
    format_transcription segs =
    Ok (strip (join [10; 10]
                 (map (fun p => fst p ++ pystr " " ++ snd p) (map segment_pair segs)))).
Proof.
  exists (concat (map csv_record (report_rows segs st))), (report_rows segs st).
  split; [apply generate_csv_rows|].
  split; [apply csv_reader_writer|].
  rewrite segment_rows_report. rewrite map_map, length_map.
  split; [reflexivity|]. split; [reflexivity|].
  rewrite format_transcription_join, map_map. reflexivity.
Qed.

(** An audio of length 0 gives a duration of 0: the statistics raise, and
    with them the pipeline. *)
Remark upload_audio_empty_audio (T : Type) (N : Number T) (U : Unicode)
  (F : FloatRepr) (segs : list (segment T)) :
  upload_audio segs 0 = Raise ZeroDivisionError.
Proof.
  unfold upload_audio. rewrite format_transcription_join. cbn [bind].
  rewrite truediv_nonzero by discriminate. cbn [bind].
  rewrite calcular_estatisticas_zero; reflexivity.
Qed.

(** ** [clean_transcription] *)

(** *** Whitespace after the first substitution *)

Lemma sub_spaces_from_single (b : bool) (s : str) :
  single_spaces (sub_spaces_from b s) /\
  (b = true -> forall c, hd_error (sub_spaces_from b s) = Some c -> is_space c = false).
Proof.
  revert b. induction s as [|c s IH]; intros b; cbn [sub_spaces_from].
  - split; [exact I | discriminate].
  - destruct (is_space c) eqn:Ec.
    + destruct b.
      * apply IH.
      * split; [|discriminate]. destruct (IH true) as [Hs Hh]. cbn [single_spaces].
        split; [|assumption]. intros _. split; [reflexivity|].
        destruct (sub_spaces_from true s) as [|d r] eqn:Er; [exact I|].
        apply Hh; reflexivity.
    + split.
      * cbn [single_spaces]. split; [congruence | apply IH].
      * intros _ d Hd. cbn in Hd. congruence.
Qed.

Lemma single_spaces_fixed (b : bool) (s : str) :
  single_spaces s ->
  (b = true -> forall c, hd_error s = Some c -> is_space c = false) ->
  sub_spaces_from b s = s.
Proof.
  revert b. induction s as [|c s IH]; intros b Hs Hh; [reflexivity|].
  cbn [single_spaces] in Hs. destruct Hs as [Hc Hs]. cbn [sub_spaces_from].
  destruct (is_space c) eqn:Ec.
  - destruct b.
    + specialize (Hh eq_refl c eq_refl). congruence.
    + destruct (Hc eq_refl) as [-> Hnext]. f_equal. apply IH; [assumption|].
      intros _ d Hd. destruct s; [discriminate|]. cbn in Hd. congruence.
  - f_equal. apply IH; [assumption | discriminate].
Qed.

Lemma single_spaces_lstrip (s : str) : single_spaces s -> single_spaces (lstrip s).
Proof.
  induction s as [|c s IH]; intros Hs; [exact I|]. cbn [lstrip].
  destruct (is_space c); [|assumption]. apply IH. apply Hs.
Qed.

Lemma single_spaces_app_l (x q : str) : single_spaces (x ++ q) -> single_spaces x.
Proof.
  induction x as [|c x IH]; intros Hs; [exact I|].
  cbn [app single_spaces] in *. destruct Hs as [Hc Hs]. split; [|auto].
  intros Ec. destruct (Hc Ec) as [-> Hnext]. split; [reflexivity|].
  destruct x; [exact I | exact Hnext].
Qed.

Lemma single_spaces_app_r (x q : str) : single_spaces (x ++ q) -> single_spaces q.
Proof.
  induction x as [|c x IH]; intros Hs; [assumption|]. apply IH, Hs.
Qed.

Lemma single_spaces_rstrip (s : str) : single_spaces s -> single_spaces (rstrip s).
Proof.
  intros Hs. destruct (rstrip_prefix s) as [q [Hq _]].
  rewrite Hq in Hs. now apply single_spaces_app_l in Hs.
Qed.

Lemma all_space_single (q : str) :
  single_spaces q -> Forall (fun c => is_space c = true) q -> q = [] \/ q = [32].
Proof.
  intros Hs Hq. destruct Hq as [|c q Hc Hq]; [now left|]. right.
  cbn [single_spaces] in Hs. destruct Hs as [Hc' _].
  destruct (Hc' Hc) as [-> Hnext].
  destruct Hq as [|d q Hd _]; [reflexivity | congruence].
Qed.

(** Stripping a text in this form removes at most one space at each end. *)
Lemma single_spaces_lstrip_cases (s : str) :
  single_spaces s -> lstrip s = s \/ s = 32 :: lstrip s.
Proof.
  intros Hs. destruct s as [|c s]; [now left|]. cbn [lstrip].
  destruct (is_space c) eqn:Ec; [|now left]. right.
  destruct Hs as [Hc Hs]. destruct (Hc Ec) as [-> Hnext]. f_equal.
  destruct s as [|d s]; [reflexivity|]. cbn [lstrip]. now rewrite Hnext.
Qed.

Lemma single_spaces_rstrip_cases (s : str) :
  single_spaces s -> rstrip s = s \/ s = rstrip s ++ [32].
Proof.
  intros Hs. destruct (rstrip_prefix s) as [q [Hq Hall]].
  assert (Hsq : single_spaces q).
  { rewrite Hq in Hs. now apply single_spaces_app_r in Hs. }
  destruct (all_space_single q Hsq Hall) as [-> | ->].
  - left. rewrite app_nil_r in Hq. congruence.
  - now right.
Qed.

Lemma lstrip_fixed (s : str) :
  (forall c, hd_error s = Some c -> is_space c = false) -> lstrip s = s.
Proof.
  intros Hh. destruct s as [|c s]; [reflexivity|]. cbn.
  now rewrite (Hh c eq_refl).
Qed.

Lemma strip_fixed (s : str) : no_outer_space s -> strip s = s.
Proof.
  intros [Hhead Hlast]. unfold strip, rstrip.
  rewrite (lstrip_fixed s Hhead), (lstrip_fixed (rev s) Hlast).
  apply rev_involutive.
Qed.

Lemma strip_idempotent (s : str) : strip (strip s) = strip s.
Proof. apply strip_fixed, strip_no_outer_space. Qed.

Lemma sub_spaces_strip (s : str) :
  single_spaces s -> sub_spaces (strip s) = strip s.
Proof.
  intros Hs. unfold sub_spaces. apply single_spaces_fixed; [|discriminate].
  unfold strip. now apply single_spaces_rstrip, single_spaces_lstrip.
Qed.

(** *** Where the second substitution finds nothing *)

Lemma no_connector_fixed `{Unicode} (prev : option codepoint) (s : str) :
  no_connector prev s -> sub_connectors_from prev 0 s = s.
Proof.
  revert prev. induction s as [|c s IH]; intros prev Hs; [reflexivity|].
  destruct Hs as [Hm Hs]. cbn [sub_connectors_from]. rewrite Hm.
  f_equal. now apply IH.
Qed.

Lemma match_literal_first (p : codepoint) (pat s : str) (prev prev' : option codepoint) :
  match_literal (p :: pat) s prev = match_literal (p :: pat) s prev'.
Proof. destruct s; reflexivity. Qed.

(** A match depends on the character before it only through [\b]. *)
Lemma match_connector_prev `{Unicode} (prev prev' : option codepoint) (s : str) :
  side_is_word prev = side_is_word prev' ->
  match_connector prev s = match_connector prev' s.
Proof.
  intros Hp. unfold match_connector, at_boundary. rewrite Hp.
  unfold match_alternative.
  change (pystr "e") with [101].
  change (pystr "então") with [101; 110; 116; 227; 111].
  now rewrite !(match_literal_first _ _ s prev prev').
Qed.

Lemma no_connector_prev `{Unicode} (prev prev' : option codepoint) (s : str) :
  side_is_word prev = side_is_word prev' ->
  no_connector prev s -> no_connector prev' s.
Proof.
  intros Hp. destruct s as [|c s]; [trivial|].
  intros [Hm Hs]. split; [|assumption].
  now rewrite <- (match_connector_prev prev prev').
Qed.

Lemma space_not_word `{Unicode} : is_word 32 = false.
Proof. reflexivity. Qed.

Lemma no_connector_lstrip `{Unicode} (s : str) :
  single_spaces s -> no_connector None s -> no_connector None (lstrip s).
Proof.
  intros Hs Hn. destruct (single_spaces_lstrip_cases s Hs) as [-> | Heq];
    [assumption|].
  rewrite Heq in Hn. destruct Hn as [_ Hn].
  apply (no_connector_prev (Some 32) None); [reflexivity | assumption].
Qed.

Lemma match_literal_app (pat u v : str) (last l : option codepoint) (rest : str) :
  match_literal pat u last = Some (l, rest) ->
  match_literal pat (u ++ v) last = Some (l, rest ++ v).
Proof.
  revert u last. induction pat as [|p pat IH]; intros u last; cbn [match_literal].
  - intros Heq. inversion Heq. reflexivity.
  - destruct u as [|c u]; [discriminate|]. cbn [app].
    destruct (matches_ignorecase p c); [apply IH | discriminate].
Qed.

Lemma at_boundary_app_space `{Unicode} (l : option codepoint) (rest : str) :
  at_boundary l (hd_error (rest ++ [32])) = at_boundary l (hd_error rest).
Proof. destruct rest; reflexivity. Qed.

Lemma match_alternative_app `{Unicode} (prev : option codepoint) (u pat : str) (n : nat) :
  match_alternative prev u pat = Some n ->
  match_alternative prev (u ++ [32]) pat = Some n.
Proof.
  unfold match_alternative.
  destruct (match_literal pat u prev) as [[l rest]|] eqn:Em; [|discriminate].
  rewrite (match_literal_app _ _ [32] _ _ _ Em), at_boundary_app_space.
  trivial.
Qed.

Lemma match_connector_app `{Unicode} (prev : option codepoint) (u : str) :
  match_connector prev (u ++ [32]) = None -> match_connector prev u = None.
Proof.
  destruct u as [|c u]; [intros _|].
  - unfold match_connector. destruct (at_boundary prev (hd_error [])); reflexivity.
  - unfold match_connector. cbn [app hd_error].
    destruct (at_boundary prev (Some c)); [|reflexivity].
    change (c :: u ++ [32]) with ((c :: u) ++ [32]).
    destruct (match_alternative prev (c :: u) (pystr "e")) as [n|] eqn:E1.
    + rewrite (match_alternative_app _ _ _ _ E1). discriminate.
    + destruct (match_alternative prev (c :: u) (pystr "então")) as [n|] eqn:E2;
        [|reflexivity].
      rewrite (match_alternative_app _ _ _ _ E2).
      destruct (match_alternative prev ((c :: u) ++ [32]) (pystr "e")); discriminate.
Qed.

Lemma no_connector_app_space `{Unicode} (prev : option codepoint) (u : str) :
  no_connector prev (u ++ [32]) -> no_connector prev u.
Proof.
  revert prev. induction u as [|c u IH]; intros prev Hn; [exact I|].
  destruct Hn as [Hm Hn]. split; [|auto].
  now apply (match_connector_app prev (c :: u)).
Qed.

Lemma no_connector_rstrip `{Unicode} (s : str) :
  single_spaces s -> no_connector None s -> no_connector None (rstrip s).
Proof.
  intros Hs Hn. destruct (single_spaces_rstrip_cases s Hs) as [-> | Heq];
    [assumption|].
  rewrite Heq in Hn. now apply no_connector_app_space.
Qed.

Lemma no_connector_strip `{Unicode} (s : str) :
  single_spaces s -> no_connector None s -> no_connector None (strip s).
Proof.
  intros Hs Hn. unfold strip.
  apply no_connector_rstrip; [now apply single_spaces_lstrip|].
  now apply no_connector_lstrip.
Qed.


(** *** Where the second substitution finds something *)

(** Commas are only ever added. *)
Lemma sub_spaces_commas (b : bool) (x : str) :
  count_occ Z.eq_dec (sub_spaces_from b x) 44 = count_occ Z.eq_dec x 44.
Proof.
  revert b. induction x as [|c x IH]; intros b; [reflexivity|].
  cbn [sub_spaces_from]. destruct (is_space c) eqn:Ec.
  - assert (Hc : c <> 44) by (intros ->; discriminate).
    rewrite (count_occ_cons_neq _ x Hc).
    destruct b; [apply IH|].
    rewrite count_occ_cons_neq by discriminate. apply IH.
  - cbn [count_occ]. destruct (Z.eq_dec c 44); now rewrite IH.
Qed.

Lemma lstrip_commas (x : str) :
  count_occ Z.eq_dec (lstrip x) 44 = count_occ Z.eq_dec x 44.
Proof.
  induction x as [|c x IH]; [reflexivity|]. cbn [lstrip].
  destruct (is_space c) eqn:Ec; [|reflexivity].
  assert (Hc : c <> 44) by (intros ->; discriminate).
  now rewrite (count_occ_cons_neq _ x Hc).
Qed.

Lemma strip_commas (x : str) :
  count_occ Z.eq_dec (strip x) 44 = count_occ Z.eq_dec x 44.
Proof.
  unfold strip, rstrip.
  now rewrite count_occ_rev, lstrip_commas, count_occ_rev, lstrip_commas.
Qed.

Lemma sub_connectors_commas `{Unicode} (prev : option codepoint) (k : nat) (x : str) :
  (count_occ Z.eq_dec x 44%Z
   <= count_occ Z.eq_dec (sub_connectors_from prev k x) 44%Z)%nat.
Proof.
  revert prev k. induction x as [|c x IH]; intros prev k; [apply Nat.le_refl|].
  cbn [sub_connectors_from]. destruct k as [|k].
  - destruct (match_connector prev (c :: x)) as [n|].
    + change (pystr ", " ++ c :: sub_connectors_from (Some c) (n - 1) x)
        with (44 :: 32 :: c :: sub_connectors_from (Some c) (n - 1) x).
      specialize (IH (Some c) (n - 1)%nat).
      cbn [count_occ]. destruct (Z.eq_dec 44 44); [|contradiction].
      destruct (Z.eq_dec 32 44); [discriminate|].
      destruct (Z.eq_dec c 44); lia.
    + specialize (IH (Some c) O). cbn [count_occ]. destruct (Z.eq_dec c 44); lia.
  - specialize (IH (Some c) k). cbn [count_occ]. destruct (Z.eq_dec c 44); lia.
Qed.

Lemma commas_fixed_no_connector `{Unicode} (prev : option codepoint) (x : str) :
  count_occ Z.eq_dec (sub_connectors_from prev 0 x) 44 = count_occ Z.eq_dec x 44 ->
  no_connector prev x.
Proof.
  revert prev. induction x as [|c x IH]; intros prev Heq; [exact I|].
  cbn [sub_connectors_from] in Heq.
  destruct (match_connector prev (c :: x)) as [n|] eqn:Em.
  - exfalso.
    change (pystr ", " ++ c :: sub_connectors_from (Some c) (n - 1) x)
      with (44 :: 32 :: c :: sub_connectors_from (Some c) (n - 1) x) in Heq.
    pose proof (sub_connectors_commas (Some c) (n - 1) x) as Hle.
    cbn [count_occ] in Heq. destruct (Z.eq_dec 44 44); [|contradiction].
    destruct (Z.eq_dec 32 44); [discriminate|].
    destruct (Z.eq_dec c 44); lia.
  - split; [exact Em|]. apply IH.
    cbn [count_occ] in Heq. destruct (Z.eq_dec c 44); lia.
Qed.

(** The first and the last character of a match are ASCII letters. *)
Lemma ignorecase_e_word `{Unicode} (c : codepoint) :
  matches_ignorecase 101 c = true -> is_word c = true /\ is_space c = false.
Proof.
  unfold matches_ignorecase. intros Hc. apply orb_true_iff in Hc.
  destruct Hc as [Hc|Hc]; apply Z.eqb_eq in Hc; subst c; split; reflexivity.
Qed.

Lemma ignorecase_o_word `{Unicode} (c : codepoint) :
  matches_ignorecase 111 c = true -> is_word c = true.
Proof.
  unfold matches_ignorecase. intros Hc. apply orb_true_iff in Hc.
  destruct Hc as [Hc|Hc]; apply Z.eqb_eq in Hc; subst c; reflexivity.
Qed.

Lemma match_literal_e_last `{Unicode} (s : str) (prev l : option codepoint) (rest : str) :
  match_literal [101] s prev = Some (l, rest) ->
  side_is_word l = true /\ exists c, s = c :: rest /\ matches_ignorecase 101 c = true.
Proof.
  destruct s as [|c s]; [discriminate|]. cbn [match_literal].
  destruct (matches_ignorecase 101 c) eqn:Ec; [|discriminate].
  intros Heq. inversion Heq; subst. split; [apply (ignorecase_e_word c Ec)|].
  now exists c.
Qed.

Lemma match_literal_entao_last `{Unicode} (s : str) (prev l : option codepoint)
  (rest : str) :
  match_literal [101; 110; 116; 227; 111] s prev = Some (l, rest) ->
  side_is_word l = true /\
  exists c s', s = c :: s' /\ matches_ignorecase 101 c = true.
Proof.
  destruct s as [|c1 [|c2 [|c3 [|c4 [|c5 s]]]]]; cbn [match_literal];
    repeat match goal with
           | |- context [if matches_ignorecase ?p ?c then _ else _] =>
               destruct (matches_ignorecase p c) eqn:?
           end; try discriminate.
  intros Heq. inversion Heq; subst. split; [now apply ignorecase_o_word|].
  now exists c1, (c2 :: c3 :: c4 :: c5 :: rest).
Qed.

(** What a match is: a boundary, then one of the two words, then a boundary. *)
Lemma match_connector_inv `{Unicode} (prev : option codepoint) (s : str) (n : nat) :
  match_connector prev s = Some n ->
  at_boundary prev (hd_error s) = true /\
  exists pat l rest,
    (pat = [101] \/ pat = [101; 110; 116; 227; 111]) /\ n = length pat /\
    match_literal pat s prev = Some (l, rest) /\
    at_boundary l (hd_error rest) = true /\ side_is_word l = true /\
    exists c s', s = c :: s' /\ matches_ignorecase 101 c = true.
Proof.
  unfold match_connector. destruct (at_boundary prev (hd_error s)); [|discriminate].
  intros Hm. split; [reflexivity|].
  change (pystr "e") with [101] in Hm.
  change (pystr "então") with [101; 110; 116; 227; 111] in Hm.
  unfold match_alternative in Hm.
  destruct (match_literal [101] s prev) as [[l rest]|] eqn:E1.
  - destruct (at_boundary l (hd_error rest)) eqn:Eb.
    + inversion Hm; subst. exists [101], l, rest.
      destruct (match_literal_e_last _ _ _ _ E1) as [Hw [c [-> Hc]]].
      repeat split; auto. now exists c, rest.
    + destruct (match_literal [101; 110; 116; 227; 111] s prev) as [[l' rest']|] eqn:E2;
        [|discriminate].
      destruct (at_boundary l' (hd_error rest')) eqn:Eb'; [|discriminate].
      inversion Hm; subst. exists [101; 110; 116; 227; 111], l', rest'.
      destruct (match_literal_entao_last _ _ _ _ E2) as [Hw Hc].
      repeat split; auto.
  - destruct (match_literal [101; 110; 116; 227; 111] s prev) as [[l' rest']|] eqn:E2;
      [|discriminate].
    destruct (at_boundary l' (hd_error rest')) eqn:Eb'; [|discriminate].
    inversion Hm; subst. exists [101; 110; 116; 227; 111], l', rest'.
    destruct (match_literal_entao_last _ _ _ _ E2) as [Hw Hc].
    repeat split; auto.
Qed.

(** What makes a match, conversely. *)
Lemma match_connector_intro `{Unicode} (prev : option codepoint) (s : str)
  (pat : str) (l : option codepoint) (rest : str) :
  pat = [101] \/ pat = [101; 110; 116; 227; 111] ->
  at_boundary prev (hd_error s) = true ->
  match_literal pat s prev = Some (l, rest) ->
  at_boundary l (hd_error rest) = true ->
  match_connector prev s <> None.
Proof.
  intros Hpat Hb Hm Hb'. unfold match_connector. rewrite Hb.
  change (pystr "e") with [101].
  change (pystr "então") with [101; 110; 116; 227; 111].
  unfold match_alternative.
  destruct Hpat as [-> | ->].
  - rewrite Hm, Hb'. discriminate.
  - destruct (match_literal [101] s prev) as [[l1 r1]|];
      [destruct (at_boundary l1 (hd_error r1)); [discriminate|]|];
      rewrite Hm, Hb'; discriminate.
Qed.

(** The characters of a match are copied as they are. *)
Lemma match_literal_skip `{Unicode} (pat x : str) (last l prev : option codepoint)
  (rest : str) :
  pat <> [] ->
  match_literal pat x last = Some (l, rest) ->
  match_literal pat (sub_connectors_from prev (length pat) x) last
  = Some (l, sub_connectors_from l 0 rest).
Proof.
  revert x last prev. induction pat as [|p pat IH]; intros x last prev Hne Hm;
    [contradiction|].
  destruct x as [|c x]; [discriminate|]. cbn [match_literal] in Hm.
  cbn [length sub_connectors_from match_literal].
  destruct (matches_ignorecase p c); [|discriminate].
  destruct pat as [|p' pat].
  - cbn [match_literal] in Hm. inversion Hm; subst. reflexivity.
  - apply IH; [discriminate | exact Hm].
Qed.

(** After a match, the next character is the one that followed it. *)
Lemma sub_connectors_head `{Unicode} (l : option codepoint) (rest : str) :
  side_is_word l = true ->
  side_is_word (hd_error (sub_connectors_from l 0 rest)) = side_is_word (hd_error rest).
Proof.
  intros Hl. destruct rest as [|q rest]; [reflexivity|].
  cbn [sub_connectors_from].
  destruct (match_connector l (q :: rest)) as [n|] eqn:Em; [|reflexivity].
  exfalso. apply match_connector_inv in Em as [Hb [_ [_ [_ [_ [_ [_ [_ [_ Hc]]]]]]]]].
  destruct Hc as [c [s' [Heq Hc]]]. inversion Heq; subst.
  apply ignorecase_e_word in Hc as [Hc _].
  unfold at_boundary in Hb. cbn [hd_error side_is_word] in Hb.
  rewrite Hl, Hc in Hb. discriminate.
Qed.

(** A standalone connector is still one after the substitution. *)
Lemma no_connector_sub `{Unicode} (prev : option codepoint) (x : str) :
  no_connector prev (sub_connectors_from prev 0 x) -> no_connector prev x.
Proof.
  revert prev. induction x as [|c x IH]; intros prev Hn; [exact I|].
  cbn [sub_connectors_from] in Hn.
  destruct (match_connector prev (c :: x)) as [n|] eqn:Em.
  - exfalso.
    destruct (match_connector_inv _ _ _ Em)
      as [_ [pat [l [rest [Hpat [Hlen [Hm [Hb [Hl [c0 [s' [Heq Hc]]]]]]]]]]]].
    inversion Heq; subst c0 s'. apply ignorecase_e_word in Hc as [Hc _].
    assert (Hne : pat <> []) by (destruct Hpat as [-> | ->]; discriminate).
    change (pystr ", " ++ c :: sub_connectors_from (Some c) (n - 1) x)
      with (44 :: 32 :: c :: sub_connectors_from (Some c) (n - 1) x) in Hn.
    destruct Hn as [_ [_ [Hy _]]].
    assert (Hskip : c :: sub_connectors_from (Some c) (n - 1) x
                    = sub_connectors_from (Some 32) (length pat) (c :: x)).
    { rewrite <- Hlen. destruct n as [|n]; [destruct pat; [contradiction | discriminate]|].
      cbn [sub_connectors_from]. now replace (S n - 1)%nat with n by lia. }
    rewrite Hskip in Hy. revert Hy.
    apply (match_connector_intro _ _ pat l (sub_connectors_from l 0 rest) Hpat).
    + rewrite <- Hskip. unfold at_boundary. cbn [hd_error side_is_word].
      now rewrite Hc.
    + apply match_literal_skip; [assumption|].
      destruct pat as [|p pat]; [contradiction|].
      rewrite <- Hm. apply match_literal_first.
    + unfold at_boundary in *. now rewrite sub_connectors_head.
  - destruct Hn as [_ Hn]. split; [exact Em | now apply IH].
Qed.

(** A space put back at either end starts no connector. *)
Lemma no_connector_cons_space `{Unicode} (x : str) :
  no_connector None x -> no_connector None (32 :: x).
Proof.
  intros Hn. split; [reflexivity|].
  apply (no_connector_prev None (Some 32)); [reflexivity | assumption].
Qed.

Lemma match_literal_app_inv (pat u : str) (last l : option codepoint) (rest : str) :
  Forall (fun p => matches_ignorecase p 32 = false) pat ->
  match_literal pat (u ++ [32]) last = Some (l, rest) ->
  exists rest0, rest = rest0 ++ [32] /\ match_literal pat u last = Some (l, rest0).
Proof.
  intros Hpat. revert u last. induction Hpat as [|p pat Hp Hpat IH]; intros u last Hm.
  - cbn [match_literal] in *. inversion Hm; subst. now exists u.
  - destruct u as [|c u]; cbn [app match_literal] in *.
    + rewrite Hp in Hm. discriminate.
    + destruct (matches_ignorecase p c); [now apply IH | discriminate].
Qed.

Lemma match_connector_snoc `{Unicode} (prev : option codepoint) (u : str) :
  match_connector prev u = None -> match_connector prev (u ++ [32]) = None.
Proof.
  intros Hu. destruct (match_connector prev (u ++ [32])) as [n|] eqn:Em;
    [exfalso | reflexivity].
  destruct (match_connector_inv _ _ _ Em)
    as [Hb [pat [l [rest [Hpat [_ [Hm [Hb' _]]]]]]]].
  assert (Hno : Forall (fun p => matches_ignorecase p 32 = false) pat)
    by (destruct Hpat as [-> | ->]; repeat constructor).
  destruct (match_literal_app_inv _ _ _ _ _ Hno Hm) as [rest0 [-> Hm0]].
  rewrite at_boundary_app_space in Hb'.
  destruct u as [|c u].
  - destruct Hpat as [-> | ->]; discriminate Hm0.
  - revert Hu. now apply (match_connector_intro _ _ pat l rest0).
Qed.

Lemma no_connector_snoc_space `{Unicode} (prev : option codepoint) (x : str) :
  no_connector prev x -> no_connector prev (x ++ [32]).
Proof.
  revert prev. induction x as [|c x IH]; intros prev Hn.
  - split; [|exact I]. apply (match_connector_snoc prev []).
    unfold match_connector. destruct (at_boundary prev (hd_error [])); reflexivity.
  - destruct Hn as [Hm Hn]. split; [|now apply IH].
    now apply (match_connector_snoc prev (c :: x)).
Qed.

Lemma no_connector_unstrip `{Unicode} (s : str) :
  single_spaces s -> no_connector None (strip s) -> no_connector None s.
Proof.
  intros Hs Hn. unfold strip in Hn.
  assert (Hl : no_connector None (lstrip s)).
  { destruct (single_spaces_rstrip_cases _ (single_spaces_lstrip _ Hs)) as [Heq | Heq].
    - now rewrite Heq in Hn.
    - rewrite Heq. now apply no_connector_snoc_space. }
  destruct (single_spaces_lstrip_cases s Hs) as [Heq | Heq].
  - now rewrite Heq in Hl.
  - rewrite Heq. now apply no_connector_cons_space.
Qed.

(** The second substitution keeps the whitespace in single spaces. *)
Lemma sub_connectors_head_nonspace `{Unicode} (prev : option codepoint) (k : nat)
  (t : str) :
  (forall d, hd_error t = Some d -> is_space d = false) ->
  forall d, hd_error (sub_connectors_from prev k t) = Some d -> is_space d = false.
Proof.
  intros Ht d. destruct t as [|c t]; [discriminate|].
  cbn [sub_connectors_from]. destruct k as [|k].
  - destruct (match_connector prev (c :: t)).
    + cbn. intros Heq. inversion Heq. reflexivity.
    + cbn. intros Heq. apply Ht. exact Heq.
  - cbn. intros Heq. apply Ht. exact Heq.
Qed.

Lemma single_spaces_cons (c : codepoint) (t out : str) :
  single_spaces (c :: t) -> single_spaces out ->
  ((forall d, hd_error t = Some d -> is_space d = false) ->
   forall d, hd_error out = Some d -> is_space d = false) ->
  single_spaces (c :: out).
Proof.
  intros [Hc _] Hout Hhead. split; [|assumption].
  intros Ec. destruct (Hc Ec) as [-> Hnext]. split; [reflexivity|].
  destruct out as [|d out]; [exact I|]. apply Hhead; [|reflexivity].
  intros e He. destruct t; [discriminate|]. cbn in He. congruence.
Qed.

Lemma sub_connectors_single `{Unicode} (prev : option codepoint) (k : nat) (t : str) :
  single_spaces t -> single_spaces (sub_connectors_from prev k t).
Proof.
  revert prev k. induction t as [|c t IH]; intros prev k Hs; [exact I|].
  pose proof Hs as [_ Ht].
  cbn [sub_connectors_from]. destruct k as [|k].
  - destruct (match_connector prev (c :: t)) as [n|] eqn:Em.
    + apply match_connector_inv in Em as [_ [_ [_ [_ [_ [_ [_ [_ [_ Hc]]]]]]]]].
      destruct Hc as [c0 [s' [Heq Hc]]]. inversion Heq; subst c0 s'.
      apply ignorecase_e_word in Hc as [_ Hc].
      change (pystr ", " ++ c :: sub_connectors_from (Some c) (n - 1) t)
        with (44 :: 32 :: c :: sub_connectors_from (Some c) (n - 1) t).
      split; [intros Hf; discriminate Hf|].
      split; [intros _; split; [reflexivity | exact Hc]|].
      apply (single_spaces_cons c t); [assumption | now apply IH |].
      apply sub_connectors_head_nonspace.
    + apply (single_spaces_cons c t); [assumption | now apply IH |].
      apply sub_connectors_head_nonspace.
  - apply (single_spaces_cons c t); [assumption | now apply IH |].
    apply sub_connectors_head_nonspace.
Qed.

(** Normalizing twice is normalizing once only where no connector stands. *)
Lemma clean_transcription_twice `{Unicode} (text : str) :
  clean_transcription (clean_transcription text) = clean_transcription text ->
  no_connector None (sub_spaces text).
Proof.
  intros Hid.
  assert (Hs : single_spaces (sub_spaces text)) by apply sub_spaces_from_single.
  assert (Hu : single_spaces (sub_connectors (sub_spaces text)))
    by (now apply sub_connectors_single).
  unfold clean_transcription in Hid.
  rewrite (sub_spaces_strip _ Hu) in Hid.
  apply no_connector_sub. fold (sub_connectors (sub_spaces text)).
  apply (no_connector_unstrip _ Hu).
  apply commas_fixed_no_connector. fold (sub_connectors (strip (sub_connectors (sub_spaces text)))).
  apply (f_equal (fun s => count_occ Z.eq_dec s 44)) in Hid.
  now rewrite strip_commas in Hid.
Qed.

(** C3, as the code has it: the result of the normalization has no
    whitespace at either end, and normalizing it again returns it unchanged
    exactly when the text, once its whitespace is collapsed, holds no
    standalone "e" or "então" (where it holds one, a comma is inserted
    again). *)
Theorem clean_transcription_fixed (U : Unicode) (text : str) :
  no_outer_space (clean_transcription text) /\
  (clean_transcription (clean_transcription text) = clean_transcription text ->
   no_connector None (sub_spaces text)) /\
  (no_connector None (sub_spaces text) ->
   clean_transcription text = strip (sub_spaces text) /\
   clean_transcription (clean_transcription text) = clean_transcription text).
Proof.
  split; [apply strip_no_outer_space|].
  split; [apply clean_transcription_twice|].
  intros Hn.
  assert (Hs : single_spaces (sub_spaces text)) by apply sub_spaces_from_single.
  assert (Hclean : clean_transcription text = strip (sub_spaces text)).
  { unfold clean_transcription, sub_connectors. now rewrite no_connector_fixed. }
  split; [assumption|]. rewrite Hclean.
  unfold clean_transcription, sub_connectors.
  rewrite (sub_spaces_strip _ Hs).
  rewrite no_connector_fixed by (now apply no_connector_strip).
  apply strip_idempotent.
Qed.

Lemma clean_transcription_fixed_witness :
  @clean_transcription Latin1 (pystr "  bom   dia,  Elena  ") = pystr "bom dia, Elena" /\
  @clean_transcription Latin1 (@clean_transcription Latin1 (pystr "  bom   dia,  Elena  "))
  = pystr "bom dia, Elena".
Proof.
  destruct (proj2 (proj2 (clean_transcription_fixed Latin1
                            (pystr "  bom   dia,  Elena  "))))
    as [Hclean Hagain].
  - vm_compute. repeat split; reflexivity.
  - rewrite Hagain, Hclean. split; reflexivity.
Defined.

(** C3, as stated, fails on the text "e": its normalization is ", e", and
    the normalization of that is ", , e". *)
Lemma clean_transcription_not_idempotent :
  @clean_transcription Latin1 (pystr "e") = pystr ", e" /\
  @clean_transcription Latin1 (@clean_transcription Latin1 (pystr "e")) = pystr ", , e" /\
  ~ (forall (U : Unicode) (text : str),
        clean_transcription (clean_transcription text) = clean_transcription text).
Proof.
  split; [reflexivity|]. split; [reflexivity|].
  intros Hall. specialize (Hall Latin1 (pystr "e")). vm_compute in Hall.
  discriminate Hall.
Qed.

(** ** Worked examples *)

Example split_example :
  split (pystr "  bom   dia ") = [pystr "bom"; pystr "dia"].
Proof. reflexivity. Qed.

Example strip_example : strip (pystr "  bom dia  ") = pystr "bom dia".
Proof. reflexivity. Qed.

Example clean_transcription_example :
  @clean_transcription Latin1 (pystr "  ontem  e hoje, Então  ele  veio ")
  = pystr "ontem , e hoje, , Então ele veio".
Proof. reflexivity. Qed.

Example Counter_example :
  most_common (Counter (split (pystr "b a c a b d")))
  = [(pystr "b", 2); (pystr "a", 2); (pystr "c", 1); (pystr "d", 1)].
Proof. reflexivity. Qed.

Example calcular_estatisticas_empty :
  @calcular_estatisticas Latin1 [] 1
  = Ok {| total_palavras := 0; palavras_por_minuto := 0 / 1;
          palavras_ordenadas := []; percentual_magicas := PyInt 0 |}.
Proof. reflexivity. Qed.

Example format_transcription_example :
  format_transcription
    [ {| start := 0; text := pystr " Bom dia " |};
      {| start := 75; text := pystr "obrigado" |} ]
  = Ok (pystr "(0:00) Bom dia" ++ [10; 10] ++ pystr "(1:15) obrigado").
Proof. reflexivity. Qed.

(** A report: the second transcription holds a comma and a line break, the
    third a double quote, so both are written quoted. *)
Example generate_csv_example :
  @generate_csv Z Number_int {| float_repr := fun _ => pystr "2.0" |}
    [ {| start := 0; text := pystr " Bom dia " |};
      {| start := 75; text := pystr "sim, " ++ [10] ++ pystr "claro" |};
      {| start := 3600; text := [34] ++ pystr "ok" ++ [34] |} ]
    {| total_palavras := 2; palavras_por_minuto := 2;
       palavras_ordenadas := [(pystr "bom", 1); (pystr "dia", 1)];
       percentual_magicas := PyInt 0 |}
  = Ok (pystr "timestamp,transcription" ++ [13; 10]
        ++ pystr "(0:00),Bom dia" ++ [13; 10]
        ++ pystr "(1:15)," ++ [34] ++ pystr "sim, " ++ [10] ++ pystr "claro" ++ [34]
        ++ [13; 10]
        ++ pystr "(60:00)," ++ [34; 34; 34] ++ pystr "ok" ++ [34; 34; 34] ++ [13; 10]
        ++ pystr "," ++ [13; 10]
        ++ pystr "Estatísticas," ++ [13; 10]
        ++ pystr "Total de palavras,2" ++ [13; 10]
        ++ pystr "Palavras por minuto,2.0" ++ [13; 10]
        ++ pystr "Percentual de palavras mágicas,0" ++ [13; 10]
        ++ pystr "bom,1" ++ [13; 10]
        ++ pystr "dia,1" ++ [13; 10]).
Proof. reflexivity. Qed.

Example csv_reader_example :
  csv_reader (pystr "a," ++ [34] ++ pystr "b" ++ [34; 34] ++ pystr "c," ++ [13; 10]
              ++ pystr "d" ++ [34] ++ [13; 10] ++ pystr ",")
  = Ok [ [pystr "a"; pystr "b" ++ [34] ++ pystr "c," ++ [13; 10] ++ pystr "d"];
         [[]; []] ].
Proof. reflexivity. Qed.

(** * Further properties *)

(** ** [format_timestamp]: what the string tells *)

Lemma uint_str_inj (d d' : Decimal.uint) : uint_str d = uint_str d' -> d = d'.
Proof.
  revert d'. induction d; intros d' Heq; destruct d'; cbn [uint_str] in Heq;
    try discriminate; try reflexivity; f_equal; apply IHd; now inversion Heq.
Qed.

Lemma uint_str_no_minus (d : Decimal.uint) (s : str) : uint_str d <> 45 :: s.
Proof. destruct d; discriminate. Qed.

Lemma int_str_inj (a b : Z) : int_str a = int_str b -> a = b.
Proof.
  unfold int_str. intros Heq. apply DecimalZ.to_int_inj.
  destruct (Z.to_int a) as [d|d], (Z.to_int b) as [d'|d'].
  - f_equal. now apply uint_str_inj.
  - now apply uint_str_no_minus in Heq.
  - symmetry in Heq. now apply uint_str_no_minus in Heq.
  - f_equal. apply uint_str_inj. now inversion Heq.
Qed.

Lemma app_same_length_tail {A} (l1 l2 s1 s2 : list A) :
  l1 ++ s1 = l2 ++ s2 -> length s1 = length s2 -> l1 = l2 /\ s1 = s2.
Proof.
  revert l2. induction l1 as [|x l1 IH]; intros l2 Heq Hlen.
  - destruct l2 as [|y l2]; [now split|]. exfalso.
    apply (f_equal (@length A)) in Heq. cbn in Heq. rewrite length_app in Heq. lia.
  - destruct l2 as [|y l2].
    + exfalso. apply (f_equal (@length A)) in Heq. cbn in Heq.
      rewrite length_app in Heq. lia.
    + cbn in Heq. inversion Heq; subst.
      destruct (IH l2 H1 Hlen) as [-> ->]. now split.
Qed.

Lemma two_digits_inj (s s' : Z) :
  0 <= s < 100 -> 0 <= s' < 100 -> two_digits s = two_digits s' -> s = s'.
Proof.
  intros Hs Hs' Heq. unfold two_digits in Heq.
  assert (Hd : 48 + s / 10 = 48 + s' / 10) by congruence.
  assert (Hm : 48 + s mod 10 = 48 + s' mod 10) by congruence.
  pose proof (Z.div_mod s 10 ltac:(lia)). pose proof (Z.div_mod s' 10 ltac:(lia)). lia.
Qed.

(** X1: on integer offsets the timestamp tells the whole second and nothing
    more: two offsets are formatted alike exactly when they lie in the same
    second, negative offsets included. *)
Theorem format_timestamp_same_second (a b : Z) :
  format_timestamp a = format_timestamp b <-> a / 1000 = b / 1000.
Proof.
  rewrite !format_timestamp_int. split.
  - intros Heq.
    assert (Hstr : pystr "(" ++ int_str (a / 60000) ++ pystr ":"
                   ++ two_digits ((a / 1000) mod 60) ++ pystr ")"
                   = pystr "(" ++ int_str (b / 60000) ++ pystr ":"
                     ++ two_digits ((b / 1000) mod 60) ++ pystr ")")
      by congruence.
    clear Heq. apply app_inv_head in Hstr.
    apply app_same_length_tail in Hstr as [Hm Hrest]; [|reflexivity].
    apply int_str_inj in Hm.
    apply app_inv_head, app_inv_tail in Hrest.
    assert (Hs : (a / 1000) mod 60 = (b / 1000) mod 60).
    { apply two_digits_inj; [| | exact Hrest].
      - pose proof (Z.mod_pos_bound (a / 1000) 60). lia.
      - pose proof (Z.mod_pos_bound (b / 1000) 60). lia. }
    rewrite <- !(Z.div_div _ 1000 60) in Hm by lia.
    pose proof (Z.div_mod (a / 1000) 60 ltac:(lia)).
    pose proof (Z.div_mod (b / 1000) 60 ltac:(lia)). lia.
  - intros Heq.
    rewrite <- !(Z.div_div _ 1000 60) by lia. now rewrite Heq.
Qed.

(** ** [format_transcription]: the shape of the assembled text *)

Lemma strip_head (c : codepoint) (s : str) :
  is_space c = false -> exists s', strip (c :: s) = c :: s'.
Proof.
  intros Hc. unfold strip. cbn [lstrip]. rewrite Hc.
  destruct (rstrip_prefix (c :: s)) as [q [Hq Hall]].
  destruct (rstrip (c :: s)) as [|d r] eqn:Er.
  - cbn in Hq. subst q. inversion Hall; congruence.
  - cbn in Hq. inversion Hq; subst. now exists r.
Qed.

Lemma segment_line_head {T} `{Number T} (seg : segment T) :
  exists s, segment_line seg = 40 :: s.
Proof.
  unfold segment_line, segment_pair. cbn [fst snd].
  destruct (timestamp_nonempty seg) as [s ->]. eexists. reflexivity.
Qed.

(** X2: for segments with a start of any number type, the assembly never
    fails; of no segment it is the empty string, and of at least one segment
    it is a text that begins with the opening parenthesis of the first
    timestamp and has no whitespace at either end. *)
Theorem format_transcription_shape (T : Type) (N : Number T)
  (segs : list (segment T)) :
  exists assembled,
    format_transcription segs = Ok assembled /\
    no_outer_space assembled /\
    (segs = [] <-> assembled = []) /\
    (segs <> [] -> exists s, assembled = 40 :: s).
Proof.
  exists (strip (join [10; 10] (map segment_line segs))).
  split; [apply format_transcription_join|].
  split; [apply strip_no_outer_space|].
  assert (Hhead : segs <> [] ->
                  exists s, strip (join [10; 10] (map segment_line segs)) = 40 :: s).
  { destruct segs as [|seg segs]; [contradiction|]. intros _.
    destruct (segment_line_head seg) as [l Hl].
    assert (Hjoin : exists r, join [10; 10] (map segment_line (seg :: segs)) = 40 :: r).
    { cbn [map join]. rewrite Hl. destruct (map segment_line segs); eexists; reflexivity. }
    destruct Hjoin as [r ->]. now apply strip_head. }
  split; [|exact Hhead].
  split.
  - intros ->. reflexivity.
  - intros Hnil. destruct segs as [|seg segs]; [reflexivity|].
    destruct Hhead as [s Hs]; [discriminate|]. congruence.
Qed.

(** *** Splitting the assembled text *)

Lemma split_from_space (cur : str) (x y : str) (w : codepoint) :
  is_space w = true ->
  split_from cur (x ++ w :: y) = split_from cur x ++ split_from [] y.
Proof.
  intros Hw. revert cur. induction x as [|c x IH]; intros cur; cbn [app split_from].
  - rewrite Hw. destruct cur; reflexivity.
  - destruct (is_space c).
    + destruct cur; [apply IH | cbn [app]; f_equal; apply IH].
    + apply IH.
Qed.

Lemma split_all_space (q : str) :
  Forall (fun c => is_space c = true) q -> split q = [].
Proof.
  unfold split. induction 1 as [|c q Hc Hq IH]; [reflexivity|].
  cbn [split_from]. now rewrite Hc.
Qed.

Lemma split_app_spaces (x q : str) :
  Forall (fun c => is_space c = true) q -> split (x ++ q) = split x.
Proof.
  intros Hq. destruct Hq as [|w q Hw Hq]; [now rewrite app_nil_r|].
  unfold split. rewrite (split_from_space [] x q w Hw).
  fold (split q). rewrite (split_all_space q Hq). apply app_nil_r.
Qed.

Lemma split_lstrip (s : str) : split (lstrip s) = split s.
Proof.
  unfold split. induction s as [|c s IH]; [reflexivity|].
  cbn [lstrip]. destruct (is_space c) eqn:E; [|reflexivity].
  cbn [split_from]. rewrite E. exact IH.
Qed.

Lemma split_strip (s : str) : split (strip s) = split s.
Proof.
  unfold strip. destruct (rstrip_prefix (lstrip s)) as [q [Hq Hall]].
  transitivity (split (lstrip s)); [|apply split_lstrip].
  symmetry. etransitivity; [exact (f_equal split Hq)|].
  now apply split_app_spaces.
Qed.

Lemma split_from_token (cur t : str) :
  Forall (fun c => is_space c = false) t -> (cur <> [] \/ t <> []) ->
  split_from cur t = [rev cur ++ t].
Proof.
  intros Ht. revert cur. induction Ht as [|c t Hc Ht IH]; intros cur Hne.
  - cbn. rewrite app_nil_r. destruct cur; [destruct Hne; contradiction | reflexivity].
  - cbn [split_from]. rewrite Hc. rewrite IH by (left; discriminate).
    cbn [rev]. now rewrite <- app_assoc.
Qed.

Lemma split_join_lines (lines : list str) :
  split (join [10; 10] lines) = concat (map split lines).
Proof.
  induction lines as [|l lines IH]; [reflexivity|].
  destruct lines as [|l' lines].
  - cbn [join map concat]. now rewrite app_nil_r.
  - change (join [10; 10] (l :: l' :: lines))
      with (l ++ 10 :: 10 :: join [10; 10] (l' :: lines)).
    unfold split at 1. rewrite split_from_space by reflexivity.
    cbn [split_from is_space]. change (is_space 10) with true. cbn iota.
    fold (split l). fold (split (join [10; 10] (l' :: lines))).
    rewrite IH. reflexivity.
Qed.

Lemma uint_str_no_space (d : Decimal.uint) :
  Forall (fun c => is_space c = false) (uint_str d).
Proof. induction d; cbn [uint_str]; constructor; (reflexivity || assumption). Qed.

Lemma int_str_no_space (n : Z) : Forall (fun c => is_space c = false) (int_str n).
Proof.
  unfold int_str. destruct (Z.to_int n); [|constructor; [reflexivity|]];
    apply uint_str_no_space.
Qed.

Lemma two_digits_no_space (s : Z) :
  0 <= s < 100 -> Forall (fun c => is_space c = false) (two_digits s).
Proof.
  intros Hs.
  assert (Hall : forallb (fun k => forallb (fun c => negb (is_space c)) (two_digits k))
                   (map Z.of_nat (seq 0 100)) = true) by (vm_compute; reflexivity).
  rewrite forallb_forall in Hall.
  assert (Hin : In s (map Z.of_nat (seq 0 100))).
  { apply in_map_iff. exists (Z.to_nat s). split; [lia | apply in_seq; lia]. }
  specialize (Hall s Hin). rewrite forallb_forall in Hall.
  apply Forall_forall. intros c Hc. specialize (Hall c Hc).
  now apply negb_true_iff in Hall.
Qed.

(** With an integer start the timestamp is one token. *)
Lemma timestamp_token (seg : segment Z) : split (timestamp seg) = [timestamp seg].
Proof.
  unfold split. rewrite (split_from_token [] (timestamp seg)).
  - reflexivity.
  - unfold timestamp. rewrite format_timestamp_int.
    apply Forall_app. split; [repeat constructor|].
    apply Forall_app. split; [apply int_str_no_space|].
    apply Forall_app. split; [repeat constructor|].
    apply Forall_app. split; [|repeat constructor].
    apply two_digits_no_space.
    pose proof (Z.mod_pos_bound (num_mul (start seg) 1000 / 1000) 60). lia.
  - right. destruct (timestamp_nonempty seg) as [s ->]. discriminate.
Qed.

Lemma segment_line_split (seg : segment Z) :
  split (segment_line seg) = timestamp seg :: split (text seg).
Proof.
  unfold segment_line, segment_pair. cbn [fst snd].
  change (pystr " " ++ strip (text seg)) with (32 :: strip (text seg)).
  unfold split at 1. rewrite split_from_space by reflexivity.
  fold (split (timestamp seg)). fold (split (strip (text seg))).
  now rewrite timestamp_token, split_strip.
Qed.

(** X3: with integer starts, splitting the assembled text on whitespace
    gives, segment after segment, the timestamp as one word followed by the
    words of the segment's text; so the assembled text has one word more per
    segment than the texts have. *)
Theorem format_transcription_words (segs : list (segment Z)) :
  exists assembled,
    format_transcription segs = Ok assembled /\
    split assembled = concat (map (fun seg => timestamp seg :: split (text seg)) segs) /\
    length (split assembled) =
    (length segs + length (concat (map (fun seg => split (text seg)) segs)))%nat.
Proof.
  exists (strip (join [10; 10] (map segment_line segs))).
  split; [apply format_transcription_join|].
  assert (Hsplit : split (strip (join [10; 10] (map segment_line segs)))
                   = concat (map (fun seg => timestamp seg :: split (text seg)) segs)).
  { rewrite split_strip, split_join_lines, map_map.
    f_equal. apply map_ext. apply segment_line_split. }
  split; [exact Hsplit|]. rewrite Hsplit. clear Hsplit.
  induction segs as [|seg segs IH]; [reflexivity|].
  cbn [map concat length app]. rewrite !length_app, IH. lia.
Qed.

(** ** [clean_transcription]: what it changes and what it leaves *)

Lemma letters_sub_spaces (b : bool) (s : str) :
  letters (sub_spaces_from b s) = letters s.
Proof.
  unfold letters. revert b. induction s as [|c s IH]; intros b; [reflexivity|].
  cbn [sub_spaces_from filter]. destruct (is_space c) eqn:Ec.
  - cbn [negb andb]. destruct b; [apply IH|].
    cbn [filter]. change (is_space 32) with true. cbn [negb andb]. apply IH.
  - cbn [filter]. rewrite Ec, IH. reflexivity.
Qed.

Lemma letters_sub_connectors `{Unicode} (prev : option codepoint) (k : nat) (s : str) :
  letters (sub_connectors_from prev k s) = letters s.
Proof.
  unfold letters. revert prev k. induction s as [|c s IH]; intros prev k; [reflexivity|].
  cbn [sub_connectors_from]. destruct k as [|k].
  - destruct (match_connector prev (c :: s)).
    + change (pystr ", " ++ c :: sub_connectors_from (Some c) (n - 1) s)
        with (44 :: 32 :: c :: sub_connectors_from (Some c) (n - 1) s).
      cbn [filter]. change (is_space 44) with false. change (44 =? 44) with true.
      change (is_space 32) with true. cbn [negb andb]. now rewrite IH.
    + cbn [filter]. now rewrite IH.
  - cbn [filter]. now rewrite IH.
Qed.

Lemma letters_lstrip (s : str) : letters (lstrip s) = letters s.
Proof.
  unfold letters. induction s as [|c s IH]; [reflexivity|]. cbn [lstrip].
  destruct (is_space c) eqn:Ec; [|reflexivity].
  cbn [filter]. rewrite Ec. exact IH.
Qed.

Lemma letters_strip (s : str) : letters (strip s) = letters s.
Proof.
  unfold strip, rstrip. rewrite <- (letters_lstrip s).
  set (x := lstrip s). unfold letters.
  rewrite filter_rev. fold (letters (lstrip (rev x))). rewrite letters_lstrip.
  unfold letters. now rewrite filter_rev, rev_involutive.
Qed.

(** X4: the normalization changes nothing but whitespace and commas: the
    other characters of the result are those of the text, in their order,
    and no comma of the text is lost. *)
Theorem clean_transcription_letters (U : Unicode) (text : str) :
  letters (clean_transcription text) = letters text /\
  (count_occ Z.eq_dec text 44%Z
   <= count_occ Z.eq_dec (clean_transcription text) 44%Z)%nat.
Proof.
  unfold clean_transcription, sub_connectors, sub_spaces. split.
  - now rewrite letters_strip, letters_sub_connectors, letters_sub_spaces.
  - rewrite strip_commas. rewrite <- (sub_spaces_commas false text) at 1.
    apply sub_connectors_commas.
Qed.

Lemma sub_spaces_all_space (b : bool) (s : str) :
  Forall (fun c => is_space c = true) s ->
  Forall (fun c => is_space c = true) (sub_spaces_from b s).
Proof.
  intros Hs. revert b. induction Hs as [|c s Hc Hs IH]; intros b; [constructor|].
  cbn [sub_spaces_from]. rewrite Hc. destruct b; [apply IH|].
  constructor; [reflexivity | apply IH].
Qed.

Lemma no_connector_all_space `{Unicode} (prev : option codepoint) (s : str) :
  Forall (fun c => is_space c = true) s -> no_connector prev s.
Proof.
  intros Hs. revert prev. induction Hs as [|c s Hc Hs IH]; intros prev; [exact I|].
  split; [|apply IH].
  destruct (match_connector prev (c :: s)) as [n|] eqn:Em; [exfalso | reflexivity].
  apply match_connector_inv in Em as [_ [_ [_ [_ [_ [_ [_ [_ [_ Hm]]]]]]]]].
  destruct Hm as [c0 [s' [Heq Hm]]]. inversion Heq; subst.
  apply ignorecase_e_word in Hm as [_ Hm]. congruence.
Qed.

Lemma strip_all_space (s : str) :
  Forall (fun c => is_space c = true) s -> strip s = [].
Proof.
  intros Hs. unfold strip. rewrite <- (app_nil_r s).
  now rewrite (lstrip_app_spaces s [] Hs).
Qed.

Lemma letters_nil_no_comma (s : str) :
  letters s = [] -> count_occ Z.eq_dec s 44 = O ->
  Forall (fun c => is_space c = true) s.
Proof.
  unfold letters. induction s as [|c s IH]; intros Hl Hc; [constructor|].
  cbn [filter count_occ] in *.
  destruct (Z.eq_dec c 44) as [->|Hne]; [discriminate|].
  apply Z.eqb_neq in Hne. rewrite Hne in Hl.
  destruct (is_space c) eqn:Ec; cbn [negb andb] in Hl; [|discriminate].
  constructor; auto.
Qed.

(** X5: in the result of the normalization every whitespace character is a
    single space between two other characters; and the result is empty
    exactly when the text holds nothing but whitespace. *)
Theorem clean_transcription_spaces (U : Unicode) (text : str) :
  single_spaces (clean_transcription text) /\
  no_outer_space (clean_transcription text) /\
  (clean_transcription text = [] <-> Forall (fun c => is_space c = true) text).
Proof.
  split; [|split; [apply strip_no_outer_space|]].
  - unfold clean_transcription, strip.
    apply single_spaces_rstrip, single_spaces_lstrip, sub_connectors_single.
    apply sub_spaces_from_single.
  - split.
    + intros Hnil.
      change (clean_transcription text)
        with (strip (sub_connectors_from None 0 (sub_spaces_from false text))) in Hnil.
      apply letters_nil_no_comma.
      * rewrite <- (letters_sub_spaces false text), <- (letters_sub_connectors None 0),
          <- letters_strip.
        now rewrite Hnil.
      * pose proof (sub_connectors_commas None 0 (sub_spaces_from false text)) as Hle.
        rewrite <- (strip_commas (sub_connectors_from None 0 (sub_spaces_from false text)))
          in Hle.
        rewrite Hnil, sub_spaces_commas in Hle. cbn [count_occ] in Hle. lia.
    + intros Hs. unfold clean_transcription, sub_connectors.
      assert (Hsp : Forall (fun c => is_space c = true) (sub_spaces text))
        by (now apply sub_spaces_all_space).
      rewrite no_connector_fixed by (now apply no_connector_all_space).
      now apply strip_all_space.
Qed.

(** ** [calcular_estatisticas] and [analisar_sentimento]: further facts *)






(** *** How many words are magic words *)

Lemma total_magicas_filter (toks : list str) :
  py_sum (map (fun palavra => counter_get (Counter toks) palavra) MAGIC_WORDS) =
  Z.of_nat (length (filter (fun w => str_in w MAGIC_WORDS) toks)).
Proof.
  rewrite py_sum_Zsum.
  rewrite (map_ext _ (fun k => occurrences k toks)) by (intros; apply Counter_get).
  fold (keyword_count MAGIC_WORDS toks).
  symmetry. apply filter_keyword_count, MAGIC_WORDS_NoDup.
Qed.

Lemma filter_all {A} (f : A -> bool) (l : list A) :
  length (filter f l) = length l <-> (forall x, In x l -> f x = true).
Proof.
  induction l as [|a l IH]; [split; [intros _ x [] | reflexivity]|].
  cbn [filter]. pose proof (filter_length_le f l) as Hle.
  destruct (f a) eqn:Ea; cbn [length].
  - split.
    + intros Hlen x [<-|Hx]; [assumption|]. apply IH; [lia | assumption].
    + intros Hall. f_equal. apply IH. intros x Hx. apply Hall. now right.
  - split; [lia|]. intros Hall. rewrite (Hall a) in Ea; [discriminate | now left].
Qed.

Lemma filter_none {A} (f : A -> bool) (l : list A) :
  length (filter f l) = O <-> (forall x, In x l -> f x = false).
Proof.
  induction l as [|a l IH]; [split; [intros _ x [] | reflexivity]|].
  cbn [filter]. destruct (f a) eqn:Ea; cbn [length].
  - split; [lia|]. intros Hall. rewrite (Hall a) in Ea; [discriminate | now left].
  - split.
    + intros Hlen x [<-|Hx]; [assumption|]. now apply IH.
    + intros Hall. apply IH. intros x Hx. apply Hall. now right.
Qed.

Lemma percentual_full (m t : Z) :
  0 < t -> (inject_Z m / inject_Z t * 100 == 100)%Q <-> m = t.
Proof.
  intros Ht. destruct t as [|p|p]; try lia.
  unfold Qeq, Qdiv, Qmult, Qinv, inject_Z. cbn. lia.
Qed.

Lemma percentual_null (m t : Z) :
  0 < t -> (inject_Z m / inject_Z t * 100 == 0)%Q <-> m = 0.
Proof.
  intros Ht. destruct t as [|p|p]; try lia.
  unfold Qeq, Qdiv, Qmult, Qinv, inject_Z. cbn. lia.
Qed.

(** X7: on a text with at least one word, the percentage of magic words is
    100 exactly when every word of the lowercased text is one of the magic
    words, and 0 exactly when none is. *)
Theorem percentual_magicas_extremes (U : Unicode) (texto : str) (duracao_minutos : Q) :
  ~ duracao_minutos == 0 -> tokens texto <> [] ->
  exists st,
    calcular_estatisticas texto duracao_minutos = Ok st /\
    (number_value (percentual_magicas st) == 100
     <-> forall w, In w (tokens texto) -> In w MAGIC_WORDS) /\
    (number_value (percentual_magicas st) == 0
     <-> forall w, In w (tokens texto) -> ~ In w MAGIC_WORDS).
Proof.
  intros Hd Hne. exists (estatisticas_de (tokens texto) duracao_minutos).
  split; [now apply calcular_estatisticas_returns|].
  cbn [estatisticas_de percentual_magicas].
  assert (Hpos : 0 < Z.of_nat (length (tokens texto))).
  { destruct (tokens texto); [contradiction | cbn [length]; lia]. }
  rewrite (proj2 (Z.gtb_lt _ _) Hpos). cbn [number_value].
  rewrite total_magicas_filter. split.
  - rewrite (percentual_full _ _ Hpos), Nat2Z.inj_iff, filter_all.
    split; intros Hall w Hw; apply str_in_In; auto.
  - rewrite (percentual_null _ _ Hpos).
    change 0 with (Z.of_nat 0). rewrite Nat2Z.inj_iff, filter_none.
    split; intros Hall w Hw.
    + intros Hin. apply str_in_In in Hin. rewrite (Hall w Hw) in Hin. discriminate.
    + destruct (str_in w MAGIC_WORDS) eqn:E; [|reflexivity].
      apply str_in_In in E. now apply Hall in E.
Qed.

Lemma percentual_magicas_extremes_witness :
  exists st,
    @calcular_estatisticas Latin1 (pystr "Obrigado desculpa obrigado") 1 = Ok st /\
    number_value (percentual_magicas st) == 100.
Proof.
  destruct (percentual_magicas_extremes Latin1 (pystr "Obrigado desculpa obrigado") 1)
    as [st [Hst [Hfull _]]]; [discriminate | discriminate |].
  exists st. split; [exact Hst|]. apply Hfull.
  intros w Hw. vm_compute in Hw. vm_compute. tauto.
Defined.

(** *** The order of the words *)

Lemma occurrences_perm (w : str) (l1 l2 : list str) :
  Permutation l1 l2 -> occurrences w l1 = occurrences w l2.
Proof.
  induction 1; cbn [occurrences]; try lia.
Qed.

Lemma Counter_perm (l1 l2 : list str) :
  Permutation l1 l2 -> Permutation (Counter l1) (Counter l2).
Proof.
  intros Hp. apply NoDup_Permutation.
  - apply (NoDup_map_inv fst), Counter_ok.
  - apply (NoDup_map_inv fst), Counter_ok.
  - intros [w n]. rewrite !Counter_entry, (occurrences_perm w _ _ Hp).
    split; intros [Hin Hn]; (split; [|assumption]).
    + now apply (Permutation_in _ Hp).
    + now apply (Permutation_in _ (Permutation_sym Hp)).
Qed.

(** X8: the statistics of two texts with the same words in another order
    agree in the number of words, the rate and the percentage, and their
    frequency tables hold the same entries (only the order of the entries of
    equal count can change). *)
Theorem calcular_estatisticas_word_order (U : Unicode) (texto1 texto2 : str)
  (duracao_minutos : Q) :
  ~ duracao_minutos == 0 ->
  Permutation (tokens texto1) (tokens texto2) ->
  exists st1 st2,
    calcular_estatisticas texto1 duracao_minutos = Ok st1 /\
    calcular_estatisticas texto2 duracao_minutos = Ok st2 /\
    total_palavras st1 = total_palavras st2 /\
    palavras_por_minuto st1 = palavras_por_minuto st2 /\
    percentual_magicas st1 = percentual_magicas st2 /\
    Permutation (palavras_ordenadas st1) (palavras_ordenadas st2).
Proof.
  intros Hd Hp.
  exists (estatisticas_de (tokens texto1) duracao_minutos),
         (estatisticas_de (tokens texto2) duracao_minutos).
  split; [now apply calcular_estatisticas_returns|].
  split; [now apply calcular_estatisticas_returns|].
  cbn [estatisticas_de total_palavras palavras_por_minuto palavras_ordenadas
       percentual_magicas].
  rewrite !total_magicas_filter.
  assert (Hlen : length (tokens texto1) = length (tokens texto2))
    by (now apply Permutation_length).
  assert (Hmag : length (filter (fun w => str_in w MAGIC_WORDS) (tokens texto1))
                 = length (filter (fun w => str_in w MAGIC_WORDS) (tokens texto2))).
  { apply Permutation_length. clear Hlen.
    induction Hp; cbn [filter];
      repeat match goal with |- context [if ?b then _ else _] => destruct b end;
      eauto using Permutation. }
  rewrite Hlen, Hmag. repeat split.
  rewrite (most_common_perm (Counter (tokens texto1))).
  rewrite (most_common_perm (Counter (tokens texto2))).
  now apply Counter_perm.
Qed.

Lemma calcular_estatisticas_word_order_witness :
  exists st1 st2,
    @calcular_estatisticas Latin1 (pystr "bom dia") 1 = Ok st1 /\
    @calcular_estatisticas Latin1 (pystr "dia bom") 1 = Ok st2 /\
    total_palavras st1 = total_palavras st2.
Proof.
  destruct (calcular_estatisticas_word_order Latin1 (pystr "bom dia") (pystr "dia bom") 1)
    as [st1 [st2 [H1 [H2 [Ht _]]]]]; [discriminate | apply perm_swap |].
  exists st1, st2. repeat split; assumption.
Defined.

Lemma keyword_count_perm (keywords l1 l2 : list str) :
  Permutation l1 l2 -> keyword_count keywords l1 = keyword_count keywords l2.
Proof.
  intros Hp. unfold keyword_count. f_equal. apply map_ext.
  intros k. now apply occurrences_perm.
Qed.

(** X9: the sentiment does not depend on the order of the words: two texts
    with the same words in another order get the same label. *)
Theorem analisar_sentimento_word_order (U : Unicode) (text1 text2 : str) :
  Permutation (tokens text1) (tokens text2) ->
  analisar_sentimento text1 = analisar_sentimento text2.
Proof.
  intros Hp. rewrite !analisar_sentimento_counts.
  now rewrite !(keyword_count_perm _ _ _ Hp).
Qed.

Lemma analisar_sentimento_word_order_witness :
  @analisar_sentimento Latin1 (pystr "ruim bom excelente")
  = @analisar_sentimento Latin1 (pystr "bom ruim excelente").
Proof.
  apply (analisar_sentimento_word_order Latin1). apply perm_swap.
Defined.

(** ** [generate_csv] and [upload_audio]: the whole report *)

Lemma uint_str_int_value (d : Decimal.uint) :
  int_value (uint_str d) = digits_value (uint_str d).
Proof.
  unfold int_value. pose proof (uint_str_no_minus d) as Hd.
  destruct (uint_str d) as [|c s]; [reflexivity|].
  destruct (Z.eq_dec c 45) as [->|Hc]; [now destruct (Hd s)|].
  destruct c as [|p|p]; try reflexivity.
  do 6 (destruct p as [p|p|]; try reflexivity). now destruct Hc.
Qed.

(** [int(str(n)) == n] *)
Lemma int_value_int_str (n : Z) : int_value (int_str n) = n.
Proof.
  destruct n as [|p|p]; [reflexivity| |].
  - unfold int_str. cbn [Z.to_int]. rewrite uint_str_int_value, uint_str_value.
    now rewrite DecimalPos.Unsigned.of_to.
  - unfold int_str. cbn [Z.to_int int_value]. rewrite uint_str_value.
    now rewrite DecimalPos.Unsigned.of_to.
Qed.

Lemma after_blank_app (rows more : list (list str)) (blank : list str) :
  Forall (fun r => blank_row r = false) rows -> blank_row blank = true ->
  after_blank (rows ++ blank :: more) = more.
Proof.
  intros Hrows Hblank. induction Hrows as [|r rows Hr Hrows IH]; cbn.
  - now rewrite Hblank.
  - now rewrite Hr.
Qed.

Lemma segment_rows_not_blank {T} `{Number T} (segs : list (segment T)) :
  Forall (fun r => blank_row r = false)
    (map (fun seg => [fst (segment_pair seg); snd (segment_pair seg)]) segs).
Proof.
  apply Forall_forall. intros r Hr. apply in_map_iff in Hr as [seg [<- _]].
  cbn [segment_pair fst snd]. destruct (timestamp_nonempty seg) as [s ->].
  reflexivity.
Qed.

(** X10: the report of any segments and any statistics value is written
    without failure and read back whole: one header row, one row per
    segment, a blank row, the four rows of the statistics block and one row
    per entry of the frequency table. From the rows after the blank row the
    number of words and the frequency table, counts included, are recovered
    exactly. *)
Theorem generate_csv_read_back (T : Type) (N : Number T) (F : FloatRepr)
  (segs : list (segment T)) (st : estatisticas) :
  exists file rows,
    generate_csv segs st = Ok file /\
    csv_reader file = Ok rows /\
    length rows = (length segs + length (palavras_ordenadas st) + 6)%nat /\
    hd_error rows = Some [pystr "timestamp"; pystr "transcription"] /\
    (exists total rate percent,
        firstn 4 (after_blank (tl rows)) =
        [ [pystr "Estatísticas"; []];
          [pystr "Total de palavras"; total];
          [pystr "Palavras por minuto"; rate];
          [pystr "Percentual de palavras mágicas"; percent] ] /\
        int_value total = total_palavras st) /\
    map row_entry (skipn 4 (after_blank (tl rows))) =
    map Some (palavras_ordenadas st).
Proof.
  exists (concat (map csv_record (report_rows segs st))), (report_rows segs st).
  split; [apply generate_csv_rows|].
  split; [apply csv_reader_writer|].
  unfold report_rows. cbn [tl hd_error length].
  rewrite !length_app, !length_map. cbn [length].
  split; [lia|]. split; [reflexivity|].
  cbn [app]. rewrite after_blank_app;
    [| apply segment_rows_not_blank | reflexivity].
  cbn [firstn skipn app]. split.
  - eexists _, _, _. split; [reflexivity|]. apply int_value_int_str.
  - rewrite map_map. apply map_ext. intros [w n]. cbn [row_entry fst snd].
    now rewrite int_value_int_str.
Qed.

(** X11: the pipeline of an upload fails exactly on an audio of length 0,
    with the ZeroDivisionError of the rate; on any other length it returns,
    and the report it wrote reads back as the rows of these segments and of
    the statistics of the assembled transcript. *)
Theorem upload_audio_outcome (T : Type) (N : Number T) (U : Unicode)
  (F : FloatRepr) (segs : list (segment T)) (len_audio : Z) :
  (len_audio = 0 -> upload_audio segs len_audio = Raise ZeroDivisionError) /\
  (len_audio <> 0 ->
   exists r,
     upload_audio segs len_audio = Ok r /\
     format_transcription segs = Ok (formatted_transcription r) /\
     calcular_estatisticas (formatted_transcription r)
       (inject_Z len_audio / inject_Z 60000) = Ok (estatisticas_ r) /\
     csv_reader (csv r) = Ok (report_rows segs (estatisticas_ r))).
Proof.
  split.
  - intros ->. apply upload_audio_empty_audio.
  - intros Hlen. unfold upload_audio.
    rewrite format_transcription_join. cbn [bind].
    rewrite truediv_nonzero by discriminate. cbn [bind].
    assert (Hd : ~ (inject_Z len_audio / inject_Z (1000 * 60) == 0)%Q).
    { unfold Qeq, Qdiv, Qmult, Qinv, inject_Z. cbn. lia. }
    rewrite (calcular_estatisticas_returns _ _ Hd). cbn [bind].
    rewrite generate_csv_rows. cbn [bind].
    eexists. split; [reflexivity|].
    cbn [formatted_transcription estatisticas_ csv].
    split; [reflexivity|].
    split; [apply (calcular_estatisticas_returns _ _ Hd)|].
    apply csv_reader_writer.
Qed.

Lemma upload_audio_outcome_witness :
  @upload_audio Z Number_int Latin1 {| float_repr := fun _ => pystr "1.0" |}
    [ {| start := 0; text := pystr "bom dia" |} ] 0 = Raise ZeroDivisionError /\
  exists r,
    @upload_audio Z Number_int Latin1 {| float_repr := fun _ => pystr "1.0" |}
      [ {| start := 0; text := pystr "bom dia" |} ] 60000 = Ok r /\
    @format_transcription Z Number_int [ {| start := 0; text := pystr "bom dia" |} ]
    = Ok (formatted_transcription r).
Proof.
  split.
  - apply (proj1 (upload_audio_outcome Z Number_int Latin1
                    {| float_repr := fun _ => pystr "1.0" |}
                    [ {| start := 0; text := pystr "bom dia" |} ] 0)).
    reflexivity.
  - destruct (proj2 (upload_audio_outcome Z Number_int Latin1
                       {| float_repr := fun _ => pystr "1.0" |}
                       [ {| start := 0; text := pystr "bom dia" |} ] 60000))
      as [r [Hr [Hf _]]]; [lia|].
    exists r. split; [exact Hr | exact Hf].
Defined.

(** ** The paths of the upload folder *)

Lemma split_on_no_sep (sep : codepoint) (cur s : str) :
  ~ In sep s -> split_on sep cur s = [rev cur ++ s].
Proof.
  revert cur. induction s as [|c s IH]; intros cur Hs; cbn [split_on].
  - now rewrite app_nil_r.
  - destruct (c =? sep) eqn:E.
    + apply Z.eqb_eq in E. subst. exfalso. apply Hs. now left.
    + rewrite IH by (intros Hin; apply Hs; now right).
      cbn [rev]. now rewrite <- app_assoc.
Qed.

Lemma upload_folder_join (name : str) :
  startswith_char name 47 = false -> os_path_join UPLOAD_FOLDER name = UPLOAD_FOLDER ++ name.
Proof. intros Hn. unfold os_path_join. now rewrite Hn. Qed.

Lemma no_slash_start (name : str) : ~ In 47 name -> startswith_char name 47 = false.
Proof.
  destruct name as [|c name]; [reflexivity|]. intros Hn. cbn.
  apply Z.eqb_neq. intros ->. apply Hn. now left.
Qed.

(** X12: a file name without a slash is joined to the upload folder as
    "uploads/" followed by the name, and the last piece of that path, which
    is what the page puts in the download link, is the name again. So the
    link of a report leads [download_file] back to the very path the report
    was written to. *)
Theorem download_path_round_trip :
  (forall name : str,
      ~ In 47 name ->
      download_file name = pystr "uploads/" ++ name /\
      link_filename (download_file name) = Some name) /\
  (forall stamp : str,
      ~ In 47 stamp ->
      exists name,
        link_filename (output_csv_path stamp) = Some name /\
        name = pystr "transcription_" ++ stamp ++ pystr ".csv" /\
        download_file name = output_csv_path stamp).
Proof.
  assert (Hname : forall name : str,
             ~ In 47 name ->
             download_file name = pystr "uploads/" ++ name /\
             link_filename (download_file name) = Some name).
  { intros name Hn. unfold download_file.
    rewrite (upload_folder_join name (no_slash_start name Hn)).
    split; [reflexivity|]. unfold link_filename, UPLOAD_FOLDER.
    change (pystr "uploads/" ++ name)
      with (117 :: 112 :: 108 :: 111 :: 97 :: 100 :: 115 :: 47 :: name).
    cbn [split_on Z.eqb Pos.eqb]. rewrite (split_on_no_sep 47 [] name Hn).
    reflexivity. }
  split; [exact Hname|].
  intros stamp Hs.
  assert (Hn : ~ In 47 (pystr "transcription_" ++ stamp ++ pystr ".csv")).
  { intros Hin. apply in_app_or in Hin as [Hin|Hin].
    - vm_compute in Hin. intuition discriminate.
    - apply in_app_or in Hin as [Hin|Hin]; [now apply Hs|].
      vm_compute in Hin. intuition discriminate. }
  exists (pystr "transcription_" ++ stamp ++ pystr ".csv").
  destruct (Hname _ Hn) as [Hpath Hlink].
  split; [exact Hlink|]. split; reflexivity.
Qed.

Lemma download_path_round_trip_witness :
  link_filename (output_csv_path (pystr "20240131235959"))
  = Some (pystr "transcription_20240131235959.csv").
Proof.
  destruct (proj2 download_path_round_trip (pystr "20240131235959"))
    as [name [Hlink [Hname _]]].
  - vm_compute. intuition discriminate.
  - rewrite Hlink, Hname. reflexivity.
Defined.
